(** * Image2Salt: the PlantUML URL payload encoder of [App.tsx]

    A shallow embedding of [encode6bit], [encode3bytes], [encode64] and
    [getPlantUMLUrl], together with the JavaScript primitives they call
    (32-bit bitwise operators, [String.fromCharCode], global regular
    expression replacement, [String.prototype.trim], [TextEncoder]). *)

From Stdlib Require Import String Ascii ZArith Bool Lia List.
From Equations Require Import Equations.
Import ListNotations.
Local Open Scope Z_scope.

(** ** JavaScript primitives *)

Module JS.

(** Integer-valued numbers, the only ones the encoder ever sees. *)
Definition number := Z.

(** A string is its sequence of UTF-16 code units. *)
Definition jsstring := list Z.

(** A [Uint8Array] is the list of its elements. *)
Definition Uint8Array := list Z.

(** String literals of the source, which are all ASCII. *)
Definition lit (s : string) : jsstring :=
  map (fun a => Z.of_N (N_of_ascii a)) (list_ascii_of_string s).

(** [ToInt32]: the operands of the bitwise operators are reduced modulo
    2^32 and read as signed. *)
Definition ToInt32 (x : number) : Z :=
  let m := x mod 2 ^ 32 in
  if m <? 2 ^ 31 then m else m - 2 ^ 32.

(** [a >> n]: sign-propagating right shift, the count taken modulo 32. *)
Definition shr (a n : number) : number := Z.shiftr (ToInt32 a) (n mod 32).

(** [a << n]: left shift, wrapping to 32 bits. *)
Definition shl (a n : number) : number :=
  ToInt32 (Z.shiftl (ToInt32 a) (n mod 32)).

(** [a & b] and [a | b]. *)
Definition band (a b : number) : number := Z.land (ToInt32 a) (ToInt32 b).
Definition bor (a b : number) : number := Z.lor (ToInt32 a) (ToInt32 b).

(** [String.fromCharCode(n)]: one code unit, [n] reduced modulo 2^16. *)
Definition fromCharCode (n : number) : jsstring := [n mod 65536].

(** [data[i]] on a typed array. An index past the end reads [undefined],
    which every bitwise operator coerces to 0; the source only ever feeds
    such reads to [>>] and [&]. *)
Definition get (data : Uint8Array) (i : nat) : number := nth i data 0.

End JS.

Import JS.

Declare Scope js_scope.
Delimit Scope js_scope with js.
Infix ">>" := shr (at level 52, left associativity) : js_scope.
Infix "<<" := shl (at level 52, left associativity) : js_scope.
Infix "&" := band (at level 54, left associativity) : js_scope.
Infix ".|" := bor (at level 56, left associativity) : js_scope.
Local Open Scope js_scope.

(** ** Regular expressions, as far as the source uses them *)

Module RegExp.

(** Literal code units, character classes, concatenation, and the greedy
    quantifiers [*] (over a class) and [?]. *)
Inductive regex : Type :=
| Chr (c : Z)
| Cls (p : Z -> bool)
| Cat (r1 r2 : regex)
| StarCls (p : Z -> bool)
| Opt (r : regex).

(** Backtracking matcher in continuation style. [n] counts the code units
    consumed so far; the continuation receives the rest of the input and
    the count, and the result is the length of the match. A greedy
    quantifier tries the longer alternative first. *)
Fixpoint star (p : Z -> bool) (s : jsstring) (n : nat)
    (k : jsstring -> nat -> option nat) : option nat :=
  match s with
  | c :: t =>
      if p c then
        match star p t (S n) k with
        | Some e => Some e
        | None => k s n
        end
      else k s n
  | [] => k s n
  end.

Fixpoint exec (r : regex) (s : jsstring) (n : nat)
    (k : jsstring -> nat -> option nat) : option nat :=
  match r with
  | Chr c =>
      match s with
      | x :: t => if x =? c then k t (S n) else None
      | [] => None
      end
  | Cls p =>
      match s with
      | x :: t => if p x then k t (S n) else None
      | [] => None
      end
  | Cat r1 r2 => exec r1 s n (fun t m => exec r2 t m k)
  | StarCls p => star p s n k
  | Opt r1 =>
      match exec r1 s n k with
      | Some e => Some e
      | None => k s n
      end
  end.

(** Length of the match of [r] that starts at the head of [s], if any. *)
Definition match_at (r : regex) (s : jsstring) : option nat :=
  exec r s 0 (fun _ m => Some m).

(** [s.replace(r, '')] for a global [r]: the input is scanned from the
    left; a match found at the current position is dropped and the scan
    resumes after it. [skip] is the number of code units of the current
    match still to drop. An empty match removes nothing and the scan
    moves on by one. *)
Fixpoint replace_from (r : regex) (skip : nat) (s : jsstring) : jsstring :=
  match s with
  | [] => []
  | c :: t =>
      match skip with
      | S k => replace_from r k t
      | O =>
          match match_at r s with
          | Some (S k) => replace_from r k t
          | Some O => c :: replace_from r 0 t
          | None => c :: replace_from r 0 t
          end
      end
  end.

Definition replace (r : regex) (s : jsstring) : jsstring :=
  replace_from r 0 s.

End RegExp.

(** ** [String.prototype.trim] and [TextEncoder] *)

Module Text.

(** ECMAScript [WhiteSpace] and [LineTerminator] code points. *)
Definition is_line_terminator (c : Z) : bool :=
  (c =? 0x0A) || (c =? 0x0D) || (c =? 0x2028) || (c =? 0x2029).

Definition is_white_space (c : Z) : bool :=
  (c =? 0x09) || (c =? 0x0B) || (c =? 0x0C) || (c =? 0x20) || (c =? 0xA0) ||
  (c =? 0x1680) || (0x2000 <=? c) && (c <=? 0x200A) || (c =? 0x202F) ||
  (c =? 0x205F) || (c =? 0x3000) || (c =? 0xFEFF).

Definition is_ws (c : Z) : bool := is_white_space c || is_line_terminator c.

Fixpoint trimStart (s : jsstring) : jsstring :=
  match s with
  | c :: t => if is_ws c then trimStart t else s
  | [] => []
  end.

Definition trimEnd (s : jsstring) : jsstring := rev (trimStart (rev s)).

Definition trim (s : jsstring) : jsstring := trimEnd (trimStart s).

(** UTF-8 bytes of one scalar value. *)
Definition utf8_bytes (cp : Z) : Uint8Array :=
  if cp <? 0x80 then [cp]
  else if cp <? 0x800 then [0xC0 + cp / 64; 0x80 + cp mod 64]
  else if cp <? 0x10000 then
    [0xE0 + cp / 4096; 0x80 + (cp / 64) mod 64; 0x80 + cp mod 64]
  else
    [0xF0 + cp / 262144; 0x80 + (cp / 4096) mod 64;
     0x80 + (cp / 64) mod 64; 0x80 + cp mod 64].

Definition is_lead (c : Z) : bool := (0xD800 <=? c) && (c <=? 0xDBFF).
Definition is_trail (c : Z) : bool := (0xDC00 <=? c) && (c <=? 0xDFFF).

(** [new TextEncoder().encode(s)]: surrogate pairs are combined, a lone
    surrogate becomes U+FFFD, and each scalar value is written in UTF-8. *)
Fixpoint encode (s : jsstring) : Uint8Array :=
  match s with
  | [] => []
  | c :: t =>
      if is_lead c then
        match t with
        | d :: u =>
            if is_trail d then
              utf8_bytes (0x10000 + (c - 0xD800) * 0x400 + (d - 0xDC00))
                ++ encode u
            else utf8_bytes 0xFFFD ++ encode t
        | [] => utf8_bytes 0xFFFD
        end
      else if is_trail c then utf8_bytes 0xFFFD ++ encode t
      else utf8_bytes c ++ encode t
  end.

End Text.

(** ** PlantUML encoding utilities *)

Definition encode6bit (b : number) : jsstring :=
  if b <? 10 then fromCharCode (48 + b)
  else if b <? 36 then fromCharCode (65 + b - 10)
  else if b <? 62 then fromCharCode (97 + b - 36)
  else if b =? 62 then lit "-"
  else if b =? 63 then lit "_"
  else lit "?".

Definition encode3bytes (b1 b2 b3 : number) : jsstring :=
  let c1 := b1 >> 2 in
  let c2 := ((b1 & 0x3) << 4) .| (b2 >> 4) in
  let c3 := ((b2 & 0xf) << 2) .| (b3 >> 6) in
  let c4 := b3 & 0x3f in
  encode6bit (c1 & 0x3f) ++
  encode6bit (c2 & 0x3f) ++
  encode6bit (c3 & 0x3f) ++
  encode6bit (c4 & 0x3f).

(** The body of the [for] loop of [encode64] at index [i]: what is appended
    to [r]. *)
Definition encode64_body (data : Uint8Array) (i : nat) : jsstring :=
  if (i + 2 <? length data)%nat then
    encode3bytes (get data i) (get data (i + 1)) (get data (i + 2))
  else if (i + 1 <? length data)%nat then
    let b1 := get data i in
    let b2 := get data (i + 1) in
    let c1 := b1 >> 2 in
    let c2 := ((b1 & 0x3) << 4) .| (b2 >> 4) in
    let c3 := (b2 & 0xf) << 2 in
    encode6bit (c1 & 0x3f) ++ encode6bit (c2 & 0x3f) ++ encode6bit (c3 & 0x3f)
  else
    let b1 := get data i in
    let c1 := b1 >> 2 in
    let c2 := (b1 & 0x3) << 4 in
    encode6bit (c1 & 0x3f) ++ encode6bit (c2 & 0x3f).

(** [for (let i = ...; i < data.length; i += 3) { r += ... }], from the
    loop state [(i, r)]. *)
Equations? encode64_loop (data : Uint8Array) (i : nat) (r : jsstring)
  : jsstring by wf (length data - i)%nat lt :=
  encode64_loop data i r with lt_dec i (length data) => {
    | left _ := encode64_loop data (i + 3) (r ++ encode64_body data i);
    | right _ := r }.
Proof. lia. Defined.

Definition encode64 (data : Uint8Array) : jsstring :=
  encode64_loop data 0 [].

(** The loop of [encode64] unrolled over the input that is still to be
    read: a full group of three bytes, then the rest; or one of the two
    tails. *)
Fixpoint encode64_chunks (l : Uint8Array) : jsstring :=
  match l with
  | b1 :: b2 :: b3 :: rest => encode3bytes b1 b2 b3 ++ encode64_chunks rest
  | [b1; b2] =>
      encode6bit ((b1 >> 2) & 0x3f) ++
      encode6bit ((((b1 & 0x3) << 4) .| (b2 >> 4)) & 0x3f) ++
      encode6bit (((b2 & 0xf) << 2) & 0x3f)
  | [b1] =>
      encode6bit ((b1 >> 2) & 0x3f) ++ encode6bit (((b1 & 0x3) << 4) & 0x3f)
  | [] => []
  end.

(** Integer ceiling of [a / b]. *)
Definition ceil_div (a b : nat) : nat := ((a + b - 1) / b)%nat.

(** ** The encoding as the specification words it

    The 64-symbol alphabet, the packing of three bytes into four six-bit
    groups with the two tail cases, and the inverse transform, written
    with the plain operations on [Z]. *)

Module Spec.

Definition alphabet : string :=
  "0123456789ABCDEFGHIJKLMNOPQRSTUVWXYZabcdefghijklmnopqrstuvwxyz-_".

(** The symbol of a six-bit value. *)
Definition sym (c : Z) : Z := nth (Z.to_nat c) (lit alphabet) 0.

Definition group3 (b1 b2 b3 : Z) : jsstring :=
  [ sym (Z.shiftr b1 2);
    sym (Z.lor (Z.shiftl (Z.land b1 3) 4) (Z.shiftr b2 4));
    sym (Z.lor (Z.shiftl (Z.land b2 15) 2) (Z.shiftr b3 6));
    sym (Z.land b3 63) ].

Definition tail2 (b1 b2 : Z) : jsstring :=
  [ sym (Z.shiftr b1 2);
    sym (Z.lor (Z.shiftl (Z.land b1 3) 4) (Z.shiftr b2 4));
    sym (Z.shiftl (Z.land b2 15) 2) ].

Definition tail1 (b1 : Z) : jsstring :=
  [ sym (Z.shiftr b1 2); sym (Z.shiftl (Z.land b1 3) 4) ].

Fixpoint encode (data : list Z) : jsstring :=
  match data with
  | b1 :: b2 :: b3 :: rest => group3 b1 b2 b3 ++ encode rest
  | [b1; b2] => tail2 b1 b2
  | [b1] => tail1 b1
  | [] => []
  end.

(** Number of characters the tail rule emits for [n mod 3] left-over
    bytes. *)
Definition tail_chars (k : nat) : nat :=
  match k with
  | 1 => 2
  | 2 => 3
  | _ => 0
  end%nat.

(** The inverse of the alphabet. *)
Definition decode6bit (c : Z) : Z :=
  if (48 <=? c) && (c <=? 57) then c - 48
  else if (65 <=? c) && (c <=? 90) then c - 65 + 10
  else if (97 <=? c) && (c <=? 122) then c - 97 + 36
  else if c =? 45 then 62
  else if c =? 95 then 63
  else 0.

(** The inverse of the packing: four characters give three bytes, a tail
    of three characters two bytes, a tail of two characters one byte. *)
Definition byte1 (c1 c2 : Z) : Z := Z.lor (Z.shiftl c1 2) (Z.shiftr c2 4).
Definition byte2 (c2 c3 : Z) : Z :=
  Z.lor (Z.shiftl (Z.land c2 15) 4) (Z.shiftr c3 2).
Definition byte3 (c3 c4 : Z) : Z := Z.lor (Z.shiftl (Z.land c3 3) 6) c4.

Fixpoint decode (s : jsstring) : list Z :=
  match s with
  | x1 :: x2 :: x3 :: x4 :: rest =>
      let c1 := decode6bit x1 in
      let c2 := decode6bit x2 in
      let c3 := decode6bit x3 in
      let c4 := decode6bit x4 in
      byte1 c1 c2 :: byte2 c2 c3 :: byte3 c3 c4 :: decode rest
  | [x1; x2; x3] =>
      let c1 := decode6bit x1 in
      let c2 := decode6bit x2 in
      let c3 := decode6bit x3 in
      [byte1 c1 c2; byte2 c2 c3]
  | [x1; x2] => [byte1 (decode6bit x1) (decode6bit x2)]
  | _ => []
  end.

End Spec.

(** A byte, as an element of a [Uint8Array]. *)
Definition is_byte (b : Z) : Prop := 0 <= b < 256.

(** Membership in [[0-9A-Za-z_-]]. *)
Definition in_alphabet (c : Z) : bool :=
  (48 <=? c) && (c <=? 57) || (65 <=? c) && (c <=? 90) ||
  (97 <=? c) && (c <=? 122) || (c =? 45) || (c =? 95).

(** ** The canonicalizer of [getPlantUMLUrl] *)

Definition backtick : Z := 96.
Definition LF : Z := 10.

(** [[a-z]] under the [i] flag (and without [u]): a code unit matches when
    its upper-case form lies in [A-Z], and a code unit of 128 or more is
    never identified with an ASCII letter, so the class is exactly the
    ASCII letters of both cases. The backtick and the line feed have no
    case variants. *)
Definition az_i (c : Z) : bool :=
  (97 <=? c) && (c <=? 122) || (65 <=? c) && (c <=? 90).

Definition three_backticks : RegExp.regex :=
  RegExp.Cat (RegExp.Chr backtick)
    (RegExp.Cat (RegExp.Chr backtick) (RegExp.Chr backtick)).

(** [/```[a-z]*\n?/gi] *)
Definition fence_tagged : RegExp.regex :=
  RegExp.Cat three_backticks
    (RegExp.Cat (RegExp.StarCls az_i) (RegExp.Opt (RegExp.Chr LF))).

(** [/```\n?/gi] *)
Definition fence_bare : RegExp.regex :=
  RegExp.Cat three_backticks (RegExp.Opt (RegExp.Chr LF)).

(** [code.replace(/```[a-z]*\n?/gi, '').replace(/```\n?/gi, '').trim()] *)
Definition cleanCode (code : jsstring) : jsstring :=
  Text.trim (RegExp.replace fence_bare (RegExp.replace fence_tagged code)).

(** [s] begins with a triple backtick. *)
Definition starts_fence (s : jsstring) : bool :=
  match s with
  | c1 :: c2 :: c3 :: _ =>
      (c1 =? backtick) && (c2 =? backtick) && (c3 =? backtick)
  | _ => false
  end.

(** Some triple backtick occurs in [s]. *)
Fixpoint has_fence (s : jsstring) : bool :=
  match s with
  | [] => false
  | _ :: t => starts_fence s || has_fence t
  end.

(** What a match of [fence_tagged] consumes after the backticks: the
    letters of the tag, then one line feed if there is one. *)
Fixpoint skip_letters (s : jsstring) : jsstring :=
  match s with
  | c :: t => if az_i c then skip_letters t else s
  | [] => []
  end.

Definition skip_LF (s : jsstring) : jsstring :=
  match s with
  | c :: t => if c =? LF then t else s
  | [] => []
  end.

(** [s] does not begin with white space. *)
Definition head_ok (s : jsstring) : bool :=
  match s with
  | c :: _ => negb (Text.is_ws c)
  | [] => true
  end.

(** Every triple backtick of [s] stands strictly inside a line: a code
    unit other than a line terminator precedes it and another follows
    it. [prev] is the code unit before [s], if any. *)
Fixpoint fences_mid_line_from (prev : option Z) (s : jsstring) : bool :=
  match s with
  | [] => true
  | c :: t =>
      (if starts_fence s then
         match prev, skipn 3 s with
         | Some p, q :: _ =>
             negb (Text.is_line_terminator p) &&
             negb (Text.is_line_terminator q)
         | _, _ => false
         end
       else true) && fences_mid_line_from (Some c) t
  end.

Definition fences_mid_line (s : jsstring) : bool :=
  fences_mid_line_from None s.

(** ** The pipeline *)

Section Pipeline.

(** Values thrown as exceptions. *)
Variable exn : Type.

Inductive completion (A : Type) : Type :=
| Normal (a : A)
| Throw (e : exn).
Arguments Normal {A} a.
Arguments Throw {A} e.

(** [pako.deflate(data, { level })], a library call, which may throw. *)
Variable pako_deflate : Uint8Array -> Z -> completion Uint8Array.

(** The console: the calls of [console.error], oldest first. *)
Definition console := list (jsstring * exn).

(** Computations that may throw and may write to the console. *)
Definition M (A : Type) : Type := console -> completion A * console.

Definition ret {A} (a : A) : M A := fun con => (Normal a, con).

Definition bind {A B} (m : M A) (f : A -> M B) : M B :=
  fun con =>
    match m con with
    | (Normal a, con') => f a con'
    | (Throw e, con') => (Throw e, con')
    end.

Definition lift {A} (c : completion A) : M A := fun con => (c, con).

Definition try_catch {A} (body : M A) (handler : exn -> M A) : M A :=
  fun con =>
    match body con with
    | (Normal a, con') => (Normal a, con')
    | (Throw e, con') => handler e con'
    end.

Definition console_error (msg : jsstring) (e : exn) : M unit :=
  fun con => (Normal tt, con ++ [(msg, e)]).

Notation "x <- m ;; f" := (bind m (fun x => f))
  (at level 61, m at next level, right associativity).
Notation "m ;;; f" := (bind m (fun _ => f))
  (at level 61, right associativity).

(** The body of the [try] block. *)
Definition try_block (code : jsstring) : M jsstring :=
  let cleanCode := cleanCode code in
  let data := Text.encode cleanCode in
  compressed <- lift (pako_deflate data 9) ;;
  let encoded := encode64 compressed in
  ret (lit "https://plantuml.com/plantuml/svg/~1" ++ encoded).

(** [code] is [None] when the argument is absent ([undefined] or [null]);
    [!code] holds for an absent argument and for the empty string. *)
Definition getPlantUMLUrl (code : option jsstring) : M jsstring :=
  match code with
  | None => ret []
  | Some [] => ret []
  | Some code =>
      try_catch (try_block code)
        (fun e => console_error (lit "Encoding error") e ;;; ret [])
  end.

End Pipeline.

Arguments Normal {exn A} a.
Arguments Throw {exn A} e.
Arguments try_block {exn} pako_deflate code _.
Arguments getPlantUMLUrl {exn} pako_deflate code _.

(** Two stand-ins for the library, for examples: one that compresses the
    empty input to a fixed stream and throws on anything else, and one
    that stores its input unchanged. *)
Definition deflate_empty_only (data : Uint8Array) (level : Z)
  : completion unit Uint8Array :=
  match data with
  | [] => Normal [120; 218; 3; 0; 0; 0; 0; 1]
  | _ :: _ => Throw tt
  end.

Definition deflate_stored (data : Uint8Array) (level : Z)
  : completion unit Uint8Array :=
  Normal data.

(** ** The other functions of [App.tsx] and of the service *)

(** [s.split(sep)] for a separator of one code unit: the pieces between
    the occurrences of [sep]. There is always at least one piece, also
    for the empty string. *)
Fixpoint split (sep : Z) (s : jsstring) : list jsstring :=
  match s with
  | [] => [[]]
  | c :: t =>
      if c =? sep then [] :: split sep t
      else
        match split sep t with
        | x :: xs => (c :: x) :: xs
        | [] => [[c]]
        end
  end.

Definition comma : Z := 44.
Definition colon : Z := 58.
Definition semicolon : Z := 59.

(** How the promise of [fileToBase64] is settled. *)
Inductive settled : Type :=
| Resolved (base64 mimeType : jsstring)
| Rejected (message : jsstring).

(** The [onload] handler of [fileToBase64], from [reader.result]. An
    index past the end of an array reads [undefined], here [None];
    [base64 && mimeType] holds when both are defined and non-empty. *)
Definition fileToBase64_onload (result : jsstring) : settled :=
  let base64 := nth_error (split comma result) 1 in
  let mimeType := nth_error (split colon (hd [] (split semicolon result))) 1 in
  match base64, mimeType with
  | Some (b :: bs), Some (m :: ms) => Resolved (b :: bs) (m :: ms)
  | _, _ => Rejected (lit "Failed to parse file data.")
  end.

(** [handleSubmit] of [RefinementControl], from the state [instruction]:
    the argument of the call of [onRefine], if it is called, and the new
    state. *)
Definition handleSubmit (instruction : jsstring)
  : option jsstring * jsstring :=
  match Text.trim instruction with
  | _ :: _ => (Some instruction, [])
  | [] => (None, instruction)
  end.

(** [(response.text || "").trim()], what [convertImageToSalt] and
    [refineSalt] return; [None] is an [undefined] text. *)
Definition response_text (text : option jsstring) : jsstring :=
  Text.trim
    match text with
    | Some (c :: t) => c :: t
    | _ => []
    end.

(** What [SaltPreview] renders inside its frame. *)
Inductive preview : Type :=
| Skeleton
| ErrorText (error : jsstring)
| Image (src : jsstring)
| Placeholder.

(** [SaltPreview], at a render for which [useMemo] computes
    [previewUrl]: the URL is computed first, then the chain of
    conditionals picks what is shown. *)
Definition SaltPreview {exn : Type}
    (pako_deflate : Uint8Array -> Z -> completion exn Uint8Array)
    (saltCode : option jsstring) (isLoading : bool)
    (error : option jsstring) : M exn preview :=
  @bind exn _ _
    match saltCode with
    | Some (_ :: _) => getPlantUMLUrl pako_deflate saltCode
    | _ => @ret exn _ []
    end
    (fun previewUrl =>
       @ret exn _
         (if isLoading then Skeleton
          else
            match error with
            | Some (c :: t) => ErrorText (c :: t)
            | _ =>
                match previewUrl with
                | _ :: _ => Image previewUrl
                | [] => Placeholder
                end
            end)).

(** [l1] is [l2] with some code units deleted. *)
Inductive subseq : jsstring -> jsstring -> Prop :=
| subseq_nil : subseq [] []
| subseq_skip c l1 l2 : subseq l1 l2 -> subseq l1 (c :: l2)
| subseq_keep c l1 l2 : subseq l1 l2 -> subseq (c :: l1) (c :: l2).

(** [s] ends with a backtick. *)
Definition ends_with_backtick (s : jsstring) : bool :=
  match rev s with
  | c :: _ => c =? backtick
  | [] => false
  end.

(** * Theorems *)

(** ** Bitwise operators on small non-negative numbers *)

Ltac range := unfold is_byte in *; Z.div_mod_to_equations; lia.

Lemma ToInt32_small x : 0 <= x < 2 ^ 31 -> ToInt32 x = x.
Proof.
  intros H. unfold ToInt32. cbv zeta.
  rewrite Z.mod_small by lia.
  destruct (Z.ltb_spec x (2 ^ 31)); lia.
Qed.

Lemma shr_small a n :
  0 <= a < 2 ^ 31 -> 0 <= n < 32 -> a >> n = a / 2 ^ n.
Proof.
  intros Ha Hn. unfold shr.
  rewrite ToInt32_small, Z.mod_small by lia.
  apply Z.shiftr_div_pow2. lia.
Qed.

Lemma shl_small a n :
  0 <= a -> 0 <= n < 32 -> a * 2 ^ n < 2 ^ 31 -> a << n = a * 2 ^ n.
Proof.
  intros Ha Hn Hb. unfold shl.
  assert (0 < 2 ^ n) by (apply Z.pow_pos_nonneg; lia).
  rewrite (ToInt32_small a) by nia.
  rewrite Z.mod_small, Z.shiftl_mul_pow2 by lia.
  apply ToInt32_small. nia.
Qed.

Lemma band_ones a k :
  0 <= k < 31 -> a & (2 ^ k - 1) = ToInt32 a mod 2 ^ k.
Proof.
  intros Hk. unfold band.
  assert (0 < 2 ^ k < 2 ^ 31)
    by (split; [apply Z.pow_pos_nonneg | apply Z.pow_lt_mono_r]; lia).
  rewrite (ToInt32_small (2 ^ k - 1)) by lia.
  replace (2 ^ k - 1) with (Z.ones k) by (rewrite Z.ones_equiv; lia).
  apply Z.land_ones. lia.
Qed.

Lemma lor_disjoint hi lo k :
  0 <= k -> 0 <= lo < 2 ^ k -> Z.lor (hi * 2 ^ k) lo = hi * 2 ^ k + lo.
Proof.
  intros Hk Hlo.
  rewrite <- Z.lxor_lor, <- Z.add_nocarry_lxor; try reflexivity.
  all: apply Z.bits_inj'; intros i Hi; rewrite Z.land_spec, Z.bits_0.
  all: destruct (Z.lt_ge_cases i k).
  all: try (rewrite <- Z.shiftl_mul_pow2, Z.shiftl_spec_low by lia; reflexivity).
  all: rewrite <- (Z.mod_small lo (2 ^ k)), Z.mod_pow2_bits_high by lia.
  all: apply andb_false_r.
Qed.

Lemma bor_disjoint hi lo k :
  0 <= k -> 0 <= hi -> 0 <= lo < 2 ^ k -> hi * 2 ^ k + lo < 2 ^ 31 ->
  (hi * 2 ^ k) .| lo = hi * 2 ^ k + lo.
Proof.
  intros Hk Hhi Hlo Hb. unfold bor.
  assert (0 < 2 ^ k) by (apply Z.pow_pos_nonneg; lia).
  rewrite !ToInt32_small by nia.
  apply lor_disjoint; assumption.
Qed.

(** The same facts at the shift counts and masks of the source. *)

Lemma shr2 a : 0 <= a < 2 ^ 31 -> a >> 2 = a / 4.
Proof. intros; apply (shr_small a 2); lia. Qed.
Lemma shr4 a : 0 <= a < 2 ^ 31 -> a >> 4 = a / 16.
Proof. intros; apply (shr_small a 4); lia. Qed.
Lemma shr6 a : 0 <= a < 2 ^ 31 -> a >> 6 = a / 64.
Proof. intros; apply (shr_small a 6); lia. Qed.
Lemma shl2 a : 0 <= a < 2 ^ 20 -> a << 2 = a * 4.
Proof. intros; apply (shl_small a 2); lia. Qed.
Lemma shl4 a : 0 <= a < 2 ^ 20 -> a << 4 = a * 16.
Proof. intros; apply (shl_small a 4); lia. Qed.
Lemma band3 a : 0 <= a < 2 ^ 31 -> a & 0x3 = a mod 4.
Proof. intros; rewrite <- (ToInt32_small a) at 2 by lia; apply (band_ones a 2); lia. Qed.
Lemma band15 a : 0 <= a < 2 ^ 31 -> a & 0xf = a mod 16.
Proof. intros; rewrite <- (ToInt32_small a) at 2 by lia; apply (band_ones a 4); lia. Qed.
Lemma band63 a : 0 <= a < 2 ^ 31 -> a & 0x3f = a mod 64.
Proof. intros; rewrite <- (ToInt32_small a) at 2 by lia; apply (band_ones a 6); lia. Qed.
Lemma bor4 hi lo :
  0 <= hi < 2 ^ 20 -> 0 <= lo < 16 -> (hi * 16) .| lo = hi * 16 + lo.
Proof. intros; apply (bor_disjoint hi lo 4); lia. Qed.
Lemma bor2 hi lo :
  0 <= hi < 2 ^ 20 -> 0 <= lo < 4 -> (hi * 4) .| lo = hi * 4 + lo.
Proof. intros; apply (bor_disjoint hi lo 2); lia. Qed.

(** Every argument [encode64] passes to [encode6bit] is masked. *)
Lemma band63_range v : 0 <= v & 0x3f < 64.
Proof.
  change 0x3f with (2 ^ 6 - 1). rewrite band_ones by lia.
  apply Z.mod_pos_bound. reflexivity.
Qed.

(** ** The alphabet *)

(** A property checked on each of the numbers below [n] holds of all of
    them. *)
Lemma below_forall (P : Z -> bool) (n : nat) :
  forallb P (map Z.of_nat (seq 0 n)) = true ->
  forall z, 0 <= z < Z.of_nat n -> P z = true.
Proof.
  intros H z Hz. rewrite forallb_forall in H. apply H.
  apply in_map_iff. exists (Z.to_nat z). split; [lia |].
  apply in_seq. lia.
Qed.

Lemma encode6bit_sym c : 0 <= c < 64 -> encode6bit c = [Spec.sym c].
Proof.
  intros Hc.
  pose (P := fun z => if list_eq_dec Z.eq_dec (encode6bit z) [Spec.sym z]
                      then true else false).
  assert (HP : P c = true) by (apply (below_forall P 64); [reflexivity | lia]).
  unfold P in HP. destruct (list_eq_dec _ _ _); [assumption | discriminate].
Qed.

Lemma sym_in_alphabet c : 0 <= c < 64 -> in_alphabet (Spec.sym c) = true.
Proof.
  apply (below_forall (fun z => in_alphabet (Spec.sym z)) 64). reflexivity.
Qed.

Lemma sym_not_question c : 0 <= c < 64 -> Spec.sym c <> 63.
Proof.
  intros Hc E.
  assert (H : negb (Spec.sym c =? 63) = true)
    by (apply (below_forall (fun z => negb (Spec.sym z =? 63)) 64);
        [reflexivity | lia]).
  rewrite E in H. discriminate.
Qed.

Lemma decode6bit_sym c : 0 <= c < 64 -> Spec.decode6bit (Spec.sym c) = c.
Proof.
  intros Hc. apply Z.eqb_eq.
  apply (below_forall (fun z => Spec.decode6bit (Spec.sym z) =? z) 64);
    [reflexivity | lia].
Qed.

Lemma encode6bit_length b : length (encode6bit b) = 1%nat.
Proof.
  unfold encode6bit.
  repeat match goal with |- context [if ?c then _ else _] => destruct c end;
    reflexivity.
Qed.

Lemma encode6bit_masked v :
  encode6bit (v & 0x3f) = [Spec.sym (v & 0x3f)].
Proof. apply encode6bit_sym, band63_range. Qed.

(** ** The six-bit groups on bytes *)

Lemma js_c1 b1 :
  is_byte b1 -> (b1 >> 2) & 0x3f = b1 / 4.
Proof. intros. rewrite shr2, band63, Z.mod_small by range. reflexivity. Qed.

Lemma js_c2 b1 b2 :
  is_byte b1 -> is_byte b2 ->
  (((b1 & 0x3) << 4) .| (b2 >> 4)) & 0x3f = b1 mod 4 * 16 + b2 / 16.
Proof.
  intros.
  rewrite band3, shl4, shr4, bor4, band63, Z.mod_small by range.
  reflexivity.
Qed.

Lemma js_c3 b2 b3 :
  is_byte b2 -> is_byte b3 ->
  (((b2 & 0xf) << 2) .| (b3 >> 6)) & 0x3f = b2 mod 16 * 4 + b3 / 64.
Proof.
  intros.
  rewrite band15, shl2, shr6, bor2, band63, Z.mod_small by range.
  reflexivity.
Qed.

Lemma js_c4 b3 :
  is_byte b3 -> (b3 & 0x3f) & 0x3f = b3 mod 64.
Proof.
  intros.
  rewrite (band63 b3), (band63 (b3 mod 64)), Z.mod_small by range.
  reflexivity.
Qed.

Lemma js_c2_tail b1 :
  is_byte b1 -> ((b1 & 0x3) << 4) & 0x3f = b1 mod 4 * 16.
Proof. intros. rewrite band3, shl4, band63, Z.mod_small by range. reflexivity. Qed.

Lemma js_c3_tail b2 :
  is_byte b2 -> ((b2 & 0xf) << 2) & 0x3f = b2 mod 16 * 4.
Proof. intros. rewrite band15, shl2, band63, Z.mod_small by range. reflexivity. Qed.

Lemma spec_c1 b1 : Z.shiftr b1 2 = b1 / 4.
Proof. apply (Z.shiftr_div_pow2 b1 2). lia. Qed.

Lemma spec_c2 b1 b2 :
  is_byte b2 ->
  Z.lor (Z.shiftl (Z.land b1 3) 4) (Z.shiftr b2 4) = b1 mod 4 * 16 + b2 / 16.
Proof.
  intros.
  change (Z.land b1 3) with (Z.land b1 (Z.ones 2)).
  rewrite (Z.land_ones b1 2), (Z.shiftl_mul_pow2 _ 4), (Z.shiftr_div_pow2 b2 4)
    by lia.
  apply (lor_disjoint _ _ 4); range.
Qed.

Lemma spec_c3 b2 b3 :
  is_byte b3 ->
  Z.lor (Z.shiftl (Z.land b2 15) 2) (Z.shiftr b3 6) = b2 mod 16 * 4 + b3 / 64.
Proof.
  intros.
  change (Z.land b2 15) with (Z.land b2 (Z.ones 4)).
  rewrite (Z.land_ones b2 4), (Z.shiftl_mul_pow2 _ 2), (Z.shiftr_div_pow2 b3 6)
    by lia.
  apply (lor_disjoint _ _ 2); range.
Qed.

Lemma spec_c4 b3 : Z.land b3 63 = b3 mod 64.
Proof. apply (Z.land_ones b3 6). lia. Qed.

Lemma spec_c2_tail b1 : Z.shiftl (Z.land b1 3) 4 = b1 mod 4 * 16.
Proof.
  change (Z.land b1 3) with (Z.land b1 (Z.ones 2)).
  rewrite (Z.land_ones b1 2), (Z.shiftl_mul_pow2 _ 4) by lia. reflexivity.
Qed.

Lemma spec_c3_tail b2 : Z.shiftl (Z.land b2 15) 2 = b2 mod 16 * 4.
Proof.
  change (Z.land b2 15) with (Z.land b2 (Z.ones 4)).
  rewrite (Z.land_ones b2 4), (Z.shiftl_mul_pow2 _ 2) by lia. reflexivity.
Qed.

Lemma encode3bytes_group3 b1 b2 b3 :
  is_byte b1 -> is_byte b2 -> is_byte b3 ->
  encode3bytes b1 b2 b3 = Spec.group3 b1 b2 b3.
Proof.
  intros.
  unfold encode3bytes, Spec.group3. cbv zeta.
  rewrite js_c1, js_c2, js_c3, js_c4 by assumption.
  rewrite spec_c1, spec_c2, spec_c3, spec_c4 by assumption.
  rewrite !encode6bit_sym by range. reflexivity.
Qed.

(** ** The loop of [encode64] *)

Lemma list_ind3 {A} (P : list A -> Prop) :
  P [] -> (forall a, P [a]) -> (forall a b, P [a; b]) ->
  (forall a b c l, P l -> P (a :: b :: c :: l)) ->
  forall l, P l.
Proof.
  intros P0 P1 P2 P3.
  fix IH 1.
  intros [|a [|b [|c l]]]; [apply P0 | apply P1 | apply P2 | apply P3, IH].
Qed.

Lemma get_skipn (data : Uint8Array) i k :
  get data (i + k) = nth k (skipn i data) 0.
Proof.
  unfold get. revert data.
  induction i as [|i IHi]; intros [|b data]; simpl; auto.
  destruct k; reflexivity.
Qed.

(** One iteration appends the chunk at the head of the unread input. *)
Lemma encode64_chunks_step (data : Uint8Array) i :
  (i < length data)%nat ->
  encode64_chunks (skipn i data) =
  encode64_body data i ++ encode64_chunks (skipn (i + 3) data).
Proof.
  intros Hi. unfold encode64_body.
  assert (E0 : get data i = nth 0 (skipn i data) 0)
    by (rewrite <- get_skipn; f_equal; lia).
  rewrite E0, !get_skipn. clear E0.
  replace (i + 3)%nat with (3 + i)%nat by lia.
  rewrite <- skipn_skipn.
  pose proof (length_skipn i data) as Hlen.
  destruct (skipn i data) as [|x1 [|x2 [|x3 rest]]]; simpl in Hlen.
  - lia.
  - destruct (Nat.ltb_spec (i + 2) (length data)); [lia |].
    destruct (Nat.ltb_spec (i + 1) (length data)); [lia |].
    simpl. rewrite app_nil_r. reflexivity.
  - destruct (Nat.ltb_spec (i + 2) (length data)); [lia |].
    destruct (Nat.ltb_spec (i + 1) (length data)); [| lia].
    simpl. rewrite app_nil_r. reflexivity.
  - destruct (Nat.ltb_spec (i + 2) (length data)); [| lia].
    reflexivity.
Qed.

Lemma encode64_loop_chunks (data : Uint8Array) i r :
  encode64_loop data i r = r ++ encode64_chunks (skipn i data).
Proof.
  funelim (encode64_loop data i r).
  - match goal with IH : encode64_loop _ _ _ = _ ++ _ |- _ => rewrite IH end.
    rewrite <- app_assoc, <- encode64_chunks_step by assumption.
    reflexivity.
  - rewrite skipn_all2 by lia. rewrite app_nil_r. reflexivity.
Qed.

Lemma encode64_unroll data : encode64 data = encode64_chunks data.
Proof. unfold encode64. apply encode64_loop_chunks. Qed.

Lemma encode64_chunks_spec data :
  Forall is_byte data -> encode64_chunks data = Spec.encode data.
Proof.
  induction data as [| b1 | b1 b2 | b1 b2 b3 rest IH] using list_ind3;
    intros Hb.
  - reflexivity.
  - inversion_clear Hb as [|? ? Hb1 _].
    cbn [encode64_chunks Spec.encode]. unfold Spec.tail1.
    rewrite js_c1, (js_c2_tail b1), spec_c1, spec_c2_tail by assumption.
    rewrite !encode6bit_sym by range. reflexivity.
  - inversion_clear Hb as [|? ? Hb1 Hb']. inversion_clear Hb' as [|? ? Hb2 _].
    cbn [encode64_chunks Spec.encode]. unfold Spec.tail2.
    rewrite js_c1, js_c2, (js_c3_tail b2) by assumption.
    rewrite spec_c1, spec_c2, spec_c3_tail by assumption.
    rewrite !encode6bit_sym by range. reflexivity.
  - inversion_clear Hb as [|? ? Hb1 Hb']. inversion_clear Hb' as [|? ? Hb2 Hb''].
    inversion_clear Hb'' as [|? ? Hb3 Hrest].
    cbn [encode64_chunks Spec.encode].
    rewrite encode3bytes_group3, IH by assumption. reflexivity.
Qed.

(** C3. On a byte sequence [encode64] computes what the specification
    describes: each full group of three bytes [(b1, b2, b3)] gives the
    symbols of [b1 >> 2], [((b1 & 0x3) << 4) | (b2 >> 4)],
    [((b2 & 0xF) << 2) | (b3 >> 6)] and [b3 & 0x3F]; a tail of two bytes
    gives three symbols, the third for [(b2 & 0xF) << 2]; a tail of one
    byte gives two symbols, the second for [(b1 & 0x3) << 4]. Hence
    [[0,0,0]] encodes to ["0000"] and [[255,255,255]] to ["____"]. *)
Theorem encode64_refines_spec (data : Uint8Array) :
  Forall is_byte data ->
  encode64 data = Spec.encode data /\
  encode64 [0; 0; 0] = lit "0000" /\
  encode64 [255; 255; 255] = lit "____".
Proof.
  intros Hb. split; [| split; reflexivity].
  rewrite encode64_unroll. apply encode64_chunks_spec, Hb.
Qed.

Lemma encode64_refines_spec_witness :
  Forall is_byte [77; 97; 110; 200; 5] /\
  encode64 [77; 97; 110; 200; 5] = Spec.encode [77; 97; 110; 200; 5].
Proof.
  assert (H : Forall is_byte [77; 97; 110; 200; 5])
    by (repeat constructor; unfold is_byte; lia).
  split; [exact H | exact (proj1 (encode64_refines_spec _ H))].
Defined.

(** ** Length and alphabet of the output *)

Lemma encode3bytes_length b1 b2 b3 : length (encode3bytes b1 b2 b3) = 4%nat.
Proof.
  unfold encode3bytes. cbv zeta.
  rewrite !length_app, !encode6bit_length. reflexivity.
Qed.

Lemma encode64_chunks_length l :
  length (encode64_chunks l) =
  (length l / 3 * 4 + Spec.tail_chars (length l mod 3))%nat.
Proof.
  induction l as [| b1 | b1 b2 | b1 b2 b3 rest IH] using list_ind3.
  - reflexivity.
  - cbn [encode64_chunks]. rewrite length_app, !encode6bit_length. reflexivity.
  - cbn [encode64_chunks]. rewrite !length_app, !encode6bit_length. reflexivity.
  - cbn [encode64_chunks]. rewrite length_app, encode3bytes_length, IH.
    change (length (b1 :: b2 :: b3 :: rest)) with (3 + length rest)%nat.
    replace (3 + length rest)%nat with (length rest + 1 * 3)%nat by lia.
    rewrite Nat.div_add, Nat.Div0.mod_add by discriminate. lia.
Qed.

Lemma ceil_div_4_3 n :
  ceil_div (4 * n) 3 = (n / 3 * 4 + Spec.tail_chars (n mod 3))%nat.
Proof.
  unfold ceil_div.
  pose proof (Nat.div_mod_eq n 3) as E.
  pose proof (Nat.mod_upper_bound n 3 ltac:(discriminate)) as Hm.
  remember (n / 3)%nat as q. remember (n mod 3)%nat as m.
  replace (4 * n + 3 - 1)%nat with ((4 * m + 2) + (q * 4) * 3)%nat by lia.
  rewrite Nat.div_add by discriminate.
  destruct m as [|[|[|m]]]; try lia; simpl; lia.
Qed.

(** C4. The output of [encode64] on [n] bytes has [ceil (n * 4 / 3)]
    characters, that is [floor (n / 3) * 4] plus 0, 2 or 3 characters for
    a remainder of 0, 1 or 2 bytes; the empty input gives the empty
    string. *)
Theorem encode64_length (data : Uint8Array) :
  length (encode64 data) = ceil_div (length data * 4) 3 /\
  length (encode64 data) =
    (length data / 3 * 4 + Spec.tail_chars (length data mod 3))%nat /\
  encode64 [] = [].
Proof.
  rewrite encode64_unroll, encode64_chunks_length.
  split; [| split; reflexivity].
  rewrite (Nat.mul_comm (length data) 4). symmetry. apply ceil_div_4_3.
Qed.

Lemma encode6bit_masked_alphabet v :
  Forall (fun c => in_alphabet c = true) (encode6bit (v & 0x3f)).
Proof.
  rewrite encode6bit_masked. constructor; [| constructor].
  apply sym_in_alphabet, band63_range.
Qed.

Lemma encode64_chunks_alphabet l :
  Forall (fun c => in_alphabet c = true) (encode64_chunks l).
Proof.
  induction l as [| b1 | b1 b2 | b1 b2 b3 rest IH] using list_ind3;
    cbn [encode64_chunks]; unfold encode3bytes; cbv zeta;
    repeat (apply Forall_app; split);
    auto using encode6bit_masked_alphabet.
Qed.

(** C5. Every character [encode64] produces is one of [[0-9A-Za-z_-]]: each
    argument of [encode6bit] is masked with [& 0x3f], so it lies in 0..63,
    is mapped through the alphabet, and the ['?'] branch of [encode6bit]
    is never taken. This holds whatever the elements of the input are, so
    in particular for bytes. *)
Theorem encode64_alphabet (data : Uint8Array) :
  Forall (fun c => in_alphabet c = true) (encode64 data) /\
  ~ In 63 (encode64 data) /\
  (forall v, 0 <= v & 0x3f < 64 /\
             encode6bit (v & 0x3f) = [Spec.sym (v & 0x3f)] /\
             encode6bit (v & 0x3f) <> lit "?").
Proof.
  assert (HA := encode64_chunks_alphabet data).
  rewrite <- encode64_unroll in HA.
  split; [exact HA | split].
  - intros Hin. rewrite Forall_forall in HA.
    specialize (HA _ Hin). discriminate.
  - intros v. split; [apply band63_range | split].
    + apply encode6bit_masked.
    + rewrite encode6bit_masked. intros E. injection E as E.
      exact (sym_not_question _ (band63_range v) E).
Qed.

(** ** The inverse transform *)

Lemma byte1_arith c1 c2 :
  0 <= c2 < 64 -> Spec.byte1 c1 c2 = c1 * 4 + c2 / 16.
Proof.
  intros H. unfold Spec.byte1.
  rewrite (Z.shiftl_mul_pow2 c1 2), (Z.shiftr_div_pow2 c2 4) by lia.
  apply (lor_disjoint c1 _ 2); range.
Qed.

Lemma byte2_arith c2 c3 :
  0 <= c3 < 64 -> Spec.byte2 c2 c3 = c2 mod 16 * 16 + c3 / 4.
Proof.
  intros H. unfold Spec.byte2.
  change (Z.land c2 15) with (Z.land c2 (Z.ones 4)).
  rewrite (Z.land_ones c2 4), (Z.shiftl_mul_pow2 _ 4), (Z.shiftr_div_pow2 c3 2)
    by lia.
  apply (lor_disjoint _ _ 4); range.
Qed.

Lemma byte3_arith c3 c4 :
  0 <= c4 < 64 -> Spec.byte3 c3 c4 = c3 mod 4 * 64 + c4.
Proof.
  intros H. unfold Spec.byte3.
  change (Z.land c3 3) with (Z.land c3 (Z.ones 2)).
  rewrite (Z.land_ones c3 2), (Z.shiftl_mul_pow2 _ 6) by lia.
  apply (lor_disjoint _ _ 6); range.
Qed.

(** Unpacking the six-bit groups of bytes gives the bytes back. *)

Lemma unpack1 b1 x : is_byte b1 -> 0 <= x < 16 ->
  Spec.byte1 (b1 / 4) (b1 mod 4 * 16 + x) = b1.
Proof. intros. rewrite byte1_arith by range. range. Qed.

Lemma unpack2 y b2 x : 0 <= y < 4 -> is_byte b2 -> 0 <= x < 4 ->
  Spec.byte2 (y * 16 + b2 / 16) (b2 mod 16 * 4 + x) = b2.
Proof. intros. rewrite byte2_arith by range. range. Qed.

Lemma unpack3 y b3 : 0 <= y < 16 -> is_byte b3 ->
  Spec.byte3 (y * 4 + b3 / 64) (b3 mod 64) = b3.
Proof. intros. rewrite byte3_arith by range. range. Qed.

Lemma decode_encode_spec data :
  Forall is_byte data -> Spec.decode (Spec.encode data) = data.
Proof.
  induction data as [| b1 | b1 b2 | b1 b2 b3 rest IH] using list_ind3;
    intros Hb.
  - reflexivity.
  - inversion_clear Hb as [|? ? Hb1 _].
    cbn [Spec.encode Spec.tail1 Spec.decode].
    rewrite spec_c1, spec_c2_tail, !decode6bit_sym by range.
    f_equal. rewrite <- (Z.add_0_r (b1 mod 4 * 16)). apply unpack1; range.
  - inversion_clear Hb as [|? ? Hb1 Hb']. inversion_clear Hb' as [|? ? Hb2 _].
    cbn [Spec.encode Spec.tail2 Spec.decode].
    rewrite spec_c1, spec_c2, spec_c3_tail, !decode6bit_sym by range.
    f_equal; [apply unpack1; range |].
    f_equal. rewrite <- (Z.add_0_r (b2 mod 16 * 4)). apply unpack2; range.
  - inversion_clear Hb as [|? ? Hb1 Hb']. inversion_clear Hb' as [|? ? Hb2 Hb''].
    inversion_clear Hb'' as [|? ? Hb3 Hrest].
    cbn [Spec.encode Spec.group3 app Spec.decode].
    rewrite spec_c1, spec_c2, spec_c3, spec_c4, !decode6bit_sym by range.
    rewrite IH by assumption.
    f_equal; [apply unpack1; range |].
    f_equal; [apply unpack2; range |].
    f_equal. apply unpack3; range.
Qed.

(** Hence no two byte sequences share an encoding. *)
Lemma encode64_injective (B1 B2 : Uint8Array) :
  Forall is_byte B1 -> Forall is_byte B2 ->
  encode64 B1 = encode64 B2 -> B1 = B2.
Proof.
  intros H1 H2 E.
  rewrite !encode64_unroll, !encode64_chunks_spec in E by assumption.
  rewrite <- (decode_encode_spec B1 H1), <- (decode_encode_spec B2 H2).
  f_equal. exact E.
Qed.

(** C1. Decoding the output of [encode64] with the inverse six-bit
    transform gives back the byte sequence, whatever its length and
    content. *)
Theorem encode64_round_trip (B : Uint8Array) :
  Forall is_byte B -> Spec.decode (encode64 B) = B.
Proof.
  intros Hb.
  rewrite encode64_unroll, encode64_chunks_spec by assumption.
  apply decode_encode_spec, Hb.
Qed.

Lemma encode64_round_trip_witness :
  Forall is_byte [0; 255; 7; 200] /\
  Spec.decode (encode64 [0; 255; 7; 200]) = [0; 255; 7; 200].
Proof.
  assert (H : Forall is_byte [0; 255; 7; 200])
    by (repeat constructor; unfold is_byte; lia).
  split; [exact H | exact (encode64_round_trip _ H)].
Defined.

(** ** Matches of the fence patterns *)

Lemma exec_three_backticks s n k :
  RegExp.exec three_backticks s n k =
  if starts_fence s then k (skipn 3 s) (3 + n)%nat else None.
Proof.
  unfold three_backticks, starts_fence.
  destruct s as [|c1 [|c2 [|c3 t]]]; cbn [RegExp.exec skipn];
    repeat match goal with
           | |- context [?c =? backtick] => destruct (c =? backtick)
           end; reflexivity.
Qed.

Lemma match_at_no_fence r s :
  starts_fence s = false ->
  RegExp.match_at (RegExp.Cat three_backticks r) s = None.
Proof.
  intros H. unfold RegExp.match_at. cbn [RegExp.exec].
  rewrite exec_three_backticks, H. reflexivity.
Qed.

Lemma skip_tag_le s :
  (length (skip_LF (skip_letters s)) <= length s)%nat.
Proof.
  induction s as [|c t IH]; [apply Nat.le_refl |].
  cbn [skip_letters]. destruct (az_i c); [cbn [length]; lia |].
  cbn [skip_LF]. destruct (c =? LF); cbn [length]; lia.
Qed.

(** After the backticks [fence_tagged] takes all the letters and then a
    line feed, and never gives any of them back: what follows is
    optional, so the first, longest alternative succeeds. *)
Lemma star_tag s n :
  RegExp.star az_i s n
    (fun t m => RegExp.exec (RegExp.Opt (RegExp.Chr LF)) t m
                  (fun _ e => Some e)) =
  Some (n + (length s - length (skip_LF (skip_letters s))))%nat.
Proof.
  revert n. induction s as [|c t IH]; intros n.
  - cbn. f_equal. lia.
  - cbn [RegExp.star skip_letters]. destruct (az_i c) eqn:Hc.
    + rewrite IH. f_equal.
      pose proof (skip_tag_le t). cbn [length]. lia.
    + cbn [RegExp.exec skip_LF].
      destruct (c =? LF); f_equal; cbn [length]; lia.
Qed.

Lemma skip_tag_suffix s :
  skipn (length s - length (skip_LF (skip_letters s))) s =
  skip_LF (skip_letters s).
Proof.
  induction s as [|c t IH]; [reflexivity |].
  cbn [skip_letters]. destruct (az_i c).
  - pose proof (skip_tag_le t).
    replace (length (c :: t) - length (skip_LF (skip_letters t)))%nat
      with (S (length t - length (skip_LF (skip_letters t))))
      by (cbn [length]; lia).
    exact IH.
  - cbn [skip_LF]. destruct (c =? LF).
    + replace (length (c :: t) - length t)%nat with 1%nat
        by (cbn [length]; lia).
      reflexivity.
    + rewrite Nat.sub_diag. reflexivity.
Qed.

Lemma match_at_fence_tagged s :
  starts_fence s = true ->
  RegExp.match_at fence_tagged s =
  Some (3 + (length (skipn 3 s)
             - length (skip_LF (skip_letters (skipn 3 s)))))%nat.
Proof.
  intros H. unfold RegExp.match_at, fence_tagged. cbn [RegExp.exec].
  rewrite exec_three_backticks, H. cbn [RegExp.exec].
  rewrite star_tag. f_equal; lia.
Qed.

(** ** Global replacement *)

Lemma replace_from_skipn r k s :
  RegExp.replace_from r k s = RegExp.replace r (skipn k s).
Proof.
  revert s. induction k as [|k IH]; intros s; [reflexivity |].
  destruct s as [|c t]; [reflexivity |]. cbn [RegExp.replace_from skipn].
  apply IH.
Qed.

(** Where no fence starts, the code unit is kept. *)
Lemma replace_keep r c t :
  starts_fence (c :: t) = false ->
  RegExp.replace (RegExp.Cat three_backticks r) (c :: t) =
  c :: RegExp.replace (RegExp.Cat three_backticks r) t.
Proof.
  intros H. unfold RegExp.replace. cbn [RegExp.replace_from].
  rewrite match_at_no_fence by assumption. reflexivity.
Qed.

(** Where a fence starts, the backticks, the tag and the line feed are
    dropped, and the scan resumes behind them. *)
Lemma replace_drop s :
  starts_fence s = true ->
  RegExp.replace fence_tagged s =
  RegExp.replace fence_tagged (skip_LF (skip_letters (skipn 3 s))).
Proof.
  intros H. destruct s as [|c t]; [discriminate |].
  unfold RegExp.replace at 1. cbn [RegExp.replace_from].
  rewrite match_at_fence_tagged by assumption.
  cbn [Nat.add]. rewrite replace_from_skipn.
  destruct t as [|c2 [|c3 u]]; try discriminate.
  cbn [skipn]. f_equal.
  rewrite <- (skip_tag_suffix u) at 2.
  generalize (length u - length (skip_LF (skip_letters u)))%nat as k.
  intros k. reflexivity.
Qed.

(** ** No fence survives the first replacement *)

Lemma replace_no_fence r s :
  has_fence s = false ->
  RegExp.replace (RegExp.Cat three_backticks r) s = s.
Proof.
  induction s as [|c t IH]; [reflexivity |].
  cbn [has_fence]. intros H. apply orb_false_iff in H as [Hs Ht].
  rewrite replace_keep by assumption. f_equal. auto.
Qed.

Lemma starts_fence_1 c t :
  (c =? backtick) = false -> starts_fence (c :: t) = false.
Proof.
  intros E. unfold starts_fence. rewrite E.
  destruct t as [|? [|? ?]]; reflexivity.
Qed.

Lemma starts_fence_2 c d t :
  (d =? backtick) = false -> starts_fence (c :: d :: t) = false.
Proof.
  intros E. unfold starts_fence. rewrite E, andb_false_r.
  destruct t; reflexivity.
Qed.

Lemma starts_fence_3 c d e t :
  (e =? backtick) = false -> starts_fence (c :: d :: e :: t) = false.
Proof. intros E. unfold starts_fence. rewrite E. apply andb_false_r. Qed.

(** A kept code unit is followed by what the scan makes of the rest, and
    the scan never brings backticks together: a code unit is only kept
    where no fence starts. *)
Lemma starts_fence_replace r c t :
  starts_fence (c :: t) = false ->
  starts_fence (c :: RegExp.replace (RegExp.Cat three_backticks r) t) = false.
Proof.
  intros H.
  destruct (c =? backtick) eqn:Ec; [| apply starts_fence_1, Ec].
  destruct t as [|d u]; [reflexivity |].
  destruct (d =? backtick) eqn:Ed.
  2:{ rewrite replace_keep by apply starts_fence_1, Ed.
      apply starts_fence_2, Ed. }
  destruct u as [|e v].
  { rewrite replace_keep by reflexivity. reflexivity. }
  assert (Ee : (e =? backtick) = false).
  { unfold starts_fence in H. rewrite Ec, Ed in H. exact H. }
  rewrite replace_keep by apply starts_fence_2, Ee.
  rewrite replace_keep by apply starts_fence_1, Ee.
  apply starts_fence_3, Ee.
Qed.

Lemma has_fence_replace_bound n : forall s,
  (length s <= n)%nat ->
  has_fence (RegExp.replace fence_tagged s) = false.
Proof.
  induction n as [|n IH]; intros s Hn.
  - destruct s; [reflexivity | cbn [length] in Hn; lia].
  - destruct s as [|c t]; [reflexivity |].
    destruct (starts_fence (c :: t)) eqn:Hs.
    + rewrite replace_drop by assumption. apply IH.
      destruct t as [|c2 [|c3 u]]; try discriminate.
      cbn [skipn]. pose proof (skip_tag_le u). cbn [length] in Hn. lia.
    + unfold fence_tagged. rewrite replace_keep by assumption.
      cbn [has_fence]. rewrite starts_fence_replace by assumption.
      apply IH. cbn [length] in Hn. lia.
Qed.

Lemma has_fence_replace s :
  has_fence (RegExp.replace fence_tagged s) = false.
Proof. apply (has_fence_replace_bound (length s)). apply Nat.le_refl. Qed.

(** So the second replacement finds nothing to remove. *)
Lemma cleanCode_one_pass code :
  cleanCode code = Text.trim (RegExp.replace fence_tagged code).
Proof.
  unfold cleanCode, fence_bare.
  rewrite replace_no_fence by apply has_fence_replace. reflexivity.
Qed.

(** ** Trimming *)

Lemma trimStart_head s : head_ok (Text.trimStart s) = true.
Proof.
  induction s as [|c t IH]; [reflexivity |].
  cbn [Text.trimStart]. destruct (Text.is_ws c) eqn:E; [exact IH |].
  cbn [head_ok]. rewrite E. reflexivity.
Qed.

Lemma trimStart_fixed s : head_ok s = true -> Text.trimStart s = s.
Proof.
  destruct s as [|c t]; [reflexivity |]. cbn [head_ok Text.trimStart].
  destruct (Text.is_ws c); [discriminate | reflexivity].
Qed.

Lemma trimStart_suffix s : exists ws, s = ws ++ Text.trimStart s.
Proof.
  induction s as [|c t [ws IH]]; [exists []; reflexivity |].
  cbn [Text.trimStart]. destruct (Text.is_ws c).
  - exists (c :: ws). cbn [app]. f_equal. exact IH.
  - exists []. reflexivity.
Qed.

Lemma trimEnd_prefix s : exists ws, s = Text.trimEnd s ++ ws.
Proof.
  unfold Text.trimEnd. destruct (trimStart_suffix (rev s)) as [ws E].
  exists (rev ws). rewrite <- rev_app_distr, <- E. symmetry. apply rev_involutive.
Qed.

Lemma trimEnd_head s : head_ok s = true -> head_ok (Text.trimEnd s) = true.
Proof.
  intros H. destruct (trimEnd_prefix s) as [ws E].
  destruct (Text.trimEnd s) as [|c x]; [reflexivity |].
  rewrite E in H. exact H.
Qed.

Lemma trimEnd_idempotent s : Text.trimEnd (Text.trimEnd s) = Text.trimEnd s.
Proof.
  unfold Text.trimEnd. rewrite rev_involutive.
  rewrite (trimStart_fixed _ (trimStart_head _)). reflexivity.
Qed.

Lemma trim_idempotent s : Text.trim (Text.trim s) = Text.trim s.
Proof.
  unfold Text.trim.
  rewrite (trimStart_fixed (Text.trimEnd _)).
  - apply trimEnd_idempotent.
  - apply trimEnd_head, trimStart_head.
Qed.

(** ** Fences and trimming *)

Lemma has_fence_app pre post :
  has_fence (pre ++ backtick :: backtick :: backtick :: post) = true.
Proof.
  induction pre as [|c pre IH]; [reflexivity |].
  cbn [app has_fence]. rewrite IH. apply orb_true_r.
Qed.

Lemma has_fence_split s :
  has_fence s = true ->
  exists pre post, s = pre ++ backtick :: backtick :: backtick :: post.
Proof.
  induction s as [|c t IH]; [discriminate |].
  cbn [has_fence]. intros H. apply orb_true_iff in H as [H | H].
  - destruct t as [|c2 [|c3 u]]; try discriminate.
    unfold starts_fence in H.
    apply andb_true_iff in H as [H H3]. apply andb_true_iff in H as [H1 H2].
    apply Z.eqb_eq in H1, H2, H3. subst. exists [], u. reflexivity.
  - destruct (IH H) as (pre & post & E).
    exists (c :: pre), post. rewrite E. reflexivity.
Qed.

Lemma has_fence_rev s : has_fence (rev s) = has_fence s.
Proof.
  assert (Hrev : forall x, has_fence x = true -> has_fence (rev x) = true).
  { intros x H. destruct (has_fence_split x H) as (pre & post & E).
    rewrite E, rev_app_distr. cbn [rev]. rewrite <- !app_assoc. cbn [app].
    apply has_fence_app. }
  apply eq_true_iff_eq. split; intros H.
  - rewrite <- (rev_involutive s). apply Hrev, H.
  - apply Hrev, H.
Qed.

Lemma has_fence_trimStart s : has_fence (Text.trimStart s) = has_fence s.
Proof.
  induction s as [|c t IH]; [reflexivity |].
  cbn [Text.trimStart]. destruct (Text.is_ws c) eqn:E; [| reflexivity].
  rewrite IH. cbn [has_fence]. rewrite starts_fence_1; [reflexivity |].
  destruct (Z.eqb_spec c backtick) as [-> |]; [discriminate E | reflexivity].
Qed.

Lemma has_fence_trim s : has_fence (Text.trim s) = has_fence s.
Proof.
  unfold Text.trim, Text.trimEnd.
  rewrite has_fence_rev, has_fence_trimStart, has_fence_rev.
  apply has_fence_trimStart.
Qed.

Lemma has_fence_cleanCode s : has_fence (cleanCode s) = false.
Proof.
  rewrite cleanCode_one_pass, has_fence_trim. apply has_fence_replace.
Qed.

Lemma cleanCode_no_fence s : has_fence s = false -> cleanCode s = Text.trim s.
Proof.
  intros H. rewrite cleanCode_one_pass. unfold fence_tagged.
  rewrite replace_no_fence by assumption. reflexivity.
Qed.

(** ** The canonicalizer *)

(** C7. Canonicalizing a canonical string changes nothing: the first
    pass leaves no triple backtick and no surrounding white space, so the
    second pass has nothing to remove. *)
Theorem cleanCode_idempotent (s : jsstring) :
  cleanCode (cleanCode s) = cleanCode s.
Proof.
  rewrite (cleanCode_no_fence (cleanCode s)) by apply has_fence_cleanCode.
  rewrite cleanCode_one_pass. apply trim_idempotent.
Qed.

(** Code units in front of a code unit that is no backtick are kept when
    they contain no fence. *)
Lemma replace_keep_prefix r body c s :
  has_fence body = false -> (c =? backtick) = false ->
  RegExp.replace (RegExp.Cat three_backticks r) (body ++ c :: s) =
  body ++ c :: RegExp.replace (RegExp.Cat three_backticks r) s.
Proof.
  intros Hb Hc. induction body as [|d t IH].
  - cbn [app]. apply replace_keep, starts_fence_1, Hc.
  - cbn [has_fence] in Hb. apply orb_false_iff in Hb as [Hs Ht].
    cbn [app]. rewrite replace_keep; [f_equal; auto |].
    destruct t as [|e [|f t']]; cbn [app].
    + apply starts_fence_2, Hc.
    + apply starts_fence_3, Hc.
    + exact Hs.
Qed.

Lemma has_fence_app_l a b : has_fence (a ++ b) = false -> has_fence a = false.
Proof.
  intros H. destruct (has_fence a) eqn:Ha; [| reflexivity].
  destruct (has_fence_split a Ha) as (pre & post & ->).
  rewrite <- app_assoc in H. cbn [app] in H.
  rewrite has_fence_app in H. discriminate.
Qed.

(** A prefix without fence that does not end in a backtick is kept, and
    the scan goes on behind it as if it started there. *)
Lemma replace_after_prefix r pre s :
  has_fence pre = false -> ends_with_backtick pre = false ->
  RegExp.replace (RegExp.Cat three_backticks r) (pre ++ s) =
  pre ++ RegExp.replace (RegExp.Cat three_backticks r) s.
Proof.
  intros Hf He. unfold ends_with_backtick in He.
  rewrite <- (rev_involutive pre) in Hf |- *.
  destruct (rev pre) as [|c q]; [reflexivity |].
  cbn [rev] in Hf |- *. rewrite <- !app_assoc. cbn [app].
  apply replace_keep_prefix; [| exact He].
  apply has_fence_app_l with (b := [c]). exact Hf.
Qed.

(** C6, as the code has it. The patterns are not anchored to a line
    boundary. (1) The canonicalizer only trims exactly when the input
    contains no triple backtick. (2) Its result never contains a triple
    backtick. (3) When a prefix that contains no triple backtick and does
    not end in a backtick is followed by a triple backtick, and what is
    left after the ASCII letters and the one line feed that directly
    follow the three backticks contains no triple backtick, the result is
    the prefix followed by that rest, trimmed. *)
Theorem cleanCode_removes_fences_anywhere (s : jsstring) :
  (cleanCode s = Text.trim s <-> has_fence s = false) /\
  has_fence (cleanCode s) = false /\
  (forall pre rest,
     s = pre ++ lit "```" ++ rest ->
     has_fence pre = false -> ends_with_backtick pre = false ->
     has_fence (skip_LF (skip_letters rest)) = false ->
     cleanCode s = Text.trim (pre ++ skip_LF (skip_letters rest))).
Proof.
  split; [split | split].
  - intros E. rewrite <- (has_fence_trim s), <- E. apply has_fence_cleanCode.
  - apply cleanCode_no_fence.
  - apply has_fence_cleanCode.
  - intros pre rest -> Hpre Hend Hrest.
    rewrite cleanCode_one_pass. unfold fence_tagged at 1.
    rewrite replace_after_prefix by assumption. fold fence_tagged.
    rewrite (replace_drop (lit "```" ++ rest)) by reflexivity.
    change (skipn 3 (lit "```" ++ rest)) with rest.
    unfold fence_tagged. rewrite replace_no_fence by assumption.
    reflexivity.
Qed.

Lemma cleanCode_removes_fences_anywhere_witness :
  cleanCode (lit "  @startsalt ``x`` @endsalt ") =
    Text.trim (lit "  @startsalt ``x`` @endsalt ") /\
  cleanCode (lit "x " ++ lit "```" ++ lit "js" ++ [LF] ++ lit "y") =
    lit "x y".
Proof.
  split.
  - apply (proj2 (proj1 (cleanCode_removes_fences_anywhere _))). reflexivity.
  - exact (proj2 (proj2 (cleanCode_removes_fences_anywhere _))
             (lit "x ") (lit "js" ++ [LF] ++ lit "y")
             eq_refl eq_refl eq_refl eq_refl).
Defined.

(** C6, as the specification states it, fails: in ["x ``` y"] the only
    triple backtick stands in the middle of a line, and it is removed. *)
Lemma cleanCode_mid_line_fence_removed :
  fences_mid_line (lit "x ``` y") = true /\
  cleanCode (lit "x ``` y") = lit "x  y" /\
  Text.trim (lit "x ``` y") = lit "x ``` y" /\
  cleanCode (lit "x ``` y") <> Text.trim (lit "x ``` y").
Proof.
  split; [reflexivity |]. split; [reflexivity |]. split; [reflexivity |].
  discriminate.
Qed.

(** ** The pipeline *)

Section PipelineFacts.

Context {exn : Type} (pako_deflate : Uint8Array -> Z -> completion exn Uint8Array).

Lemma try_block_normal code compressed con :
  pako_deflate (Text.encode (cleanCode code)) 9 = Normal compressed ->
  try_block pako_deflate code con =
  (Normal (lit "https://plantuml.com/plantuml/svg/~1" ++ encode64 compressed),
   con).
Proof. intros H. unfold try_block, bind, lift, ret. rewrite H. reflexivity. Qed.

Lemma try_block_throw code e con :
  pako_deflate (Text.encode (cleanCode code)) 9 = Throw e ->
  try_block pako_deflate code con = (Throw e, con).
Proof. intros H. unfold try_block, bind, lift, ret. rewrite H. reflexivity. Qed.

Lemma getPlantUMLUrl_text c t con :
  getPlantUMLUrl pako_deflate (Some (c :: t)) con =
  match try_block pako_deflate (c :: t) con with
  | (Normal url, con') => (Normal url, con')
  | (Throw e, con') => (Normal [], con' ++ [(lit "Encoding error", e)])
  end.
Proof.
  unfold getPlantUMLUrl, try_catch.
  destruct (try_block pako_deflate (c :: t) con) as [[url | e] con'];
    reflexivity.
Qed.

(** C8. [getPlantUMLUrl] always completes normally, and when anything
    inside the [try] block throws, it returns the empty string after
    writing one entry to the console. *)
Theorem getPlantUMLUrl_never_throws (code : option jsstring) (con : console exn) :
  (exists url con', getPlantUMLUrl pako_deflate code con = (Normal url, con')) /\
  (forall text e con1,
     code = Some text -> text <> [] ->
     try_block pako_deflate text con = (Throw e, con1) ->
     getPlantUMLUrl pako_deflate code con =
     (Normal [], con1 ++ [(lit "Encoding error", e)])).
Proof.
  split.
  - destruct code as [[|c t] |]; try (exists [], con; reflexivity).
    rewrite getPlantUMLUrl_text.
    destruct (try_block pako_deflate (c :: t) con) as [[url | e] con'];
      eauto.
  - intros text e con1 -> Hne Hthrow.
    destruct text as [|c t]; [contradiction |].
    rewrite getPlantUMLUrl_text, Hthrow. reflexivity.
Qed.

(** C9. A non-empty text whose compression succeeds gives the base URL,
    the tag [~1] and the encoded string; an absent or empty text gives the
    empty string. *)
Theorem getPlantUMLUrl_url (con : console exn) :
  (forall text compressed,
     text <> [] ->
     pako_deflate (Text.encode (cleanCode text)) 9 = Normal compressed ->
     getPlantUMLUrl pako_deflate (Some text) con =
     (Normal (lit "https://plantuml.com/plantuml/svg/" ++ lit "~1" ++
              encode64 compressed), con)) /\
  getPlantUMLUrl pako_deflate None con = (Normal [], con) /\
  getPlantUMLUrl pako_deflate (Some []) con = (Normal [], con).
Proof.
  split; [| split; reflexivity].
  intros [|c t] compressed Hne H; [contradiction |].
  rewrite getPlantUMLUrl_text, (try_block_normal _ _ _ H). reflexivity.
Qed.

(** C10. The guard looks at the raw text only: a non-empty text that
    canonicalizes to the empty string is compressed and encoded like any
    other, and the result is a full URL, not the empty string. White
    space alone and a pair of bare fences are such texts. *)
Theorem getPlantUMLUrl_blank_text (text : jsstring) (compressed : Uint8Array)
    (con : console exn) :
  text <> [] -> cleanCode text = [] ->
  pako_deflate [] 9 = Normal compressed ->
  getPlantUMLUrl pako_deflate (Some text) con =
    (Normal (lit "https://plantuml.com/plantuml/svg/~1" ++ encode64 compressed),
     con) /\
  lit "https://plantuml.com/plantuml/svg/~1" ++ encode64 compressed <> [] /\
  cleanCode (lit "   ") = [] /\
  cleanCode (lit "```" ++ [LF] ++ lit "```") = [].
Proof.
  intros Hne Hclean H.
  split; [| split; [discriminate | split; reflexivity]].
  destruct text as [|c t]; [contradiction |].
  rewrite getPlantUMLUrl_text. rewrite try_block_normal with (compressed := compressed).
  - reflexivity.
  - rewrite Hclean. exact H.
Qed.

End PipelineFacts.

Lemma getPlantUMLUrl_never_throws_witness :
  getPlantUMLUrl deflate_empty_only (Some (lit "@startsalt")) [] =
  (Normal [], [(lit "Encoding error", tt)]).
Proof.
  apply (proj2 (getPlantUMLUrl_never_throws deflate_empty_only
                  (Some (lit "@startsalt")) [])
           (lit "@startsalt") tt []).
  - reflexivity.
  - discriminate.
  - reflexivity.
Defined.

Lemma getPlantUMLUrl_url_witness :
  getPlantUMLUrl deflate_stored (Some (lit " A ")) [] =
  (Normal (lit "https://plantuml.com/plantuml/svg/~1GG"),
   @nil (jsstring * unit)).
Proof.
  apply (proj1 (getPlantUMLUrl_url deflate_stored []) (lit " A ") [65]).
  - discriminate.
  - reflexivity.
Defined.

Lemma getPlantUMLUrl_blank_text_witness :
  getPlantUMLUrl deflate_empty_only (Some (lit "```" ++ [LF] ++ lit "```")) [] =
  (Normal (lit "https://plantuml.com/plantuml/svg/~1UDe30000004"),
   @nil (jsstring * unit)).
Proof.
  refine (proj1 (getPlantUMLUrl_blank_text deflate_empty_only
                   (lit "```" ++ [LF] ++ lit "```")
                   [120; 218; 3; 0; 0; 0; 0; 1] [] _ _ _)).
  - discriminate.
  - reflexivity.
  - reflexivity.
Defined.

(** ** Worked examples *)

Example cleanCode_fenced :
  cleanCode (lit "```plantuml" ++ [LF] ++ lit "@startsalt" ++ [LF] ++
             lit "..." ++ [LF] ++ lit "@endsalt" ++ [LF] ++ lit "```") =
  lit "@startsalt" ++ [LF] ++ lit "..." ++ [LF] ++ lit "@endsalt".
Proof. reflexivity. Qed.

Example cleanCode_unfenced :
  cleanCode (lit "@startsalt" ++ [LF] ++ lit "@endsalt") =
  lit "@startsalt" ++ [LF] ++ lit "@endsalt".
Proof. reflexivity. Qed.

Example cleanCode_upper_case_tag :
  cleanCode (lit "```PlantUML" ++ [LF] ++ lit "x") = lit "x".
Proof. reflexivity. Qed.

Example encode64_tails :
  encode64 [255] = lit "_m" /\ encode64 [255; 255] = lit "__y".
Proof. split; reflexivity. Qed.

Example encode_utf8 :
  Text.encode [0x41; 0xE9; 0x3042; 0xD83D; 0xDE00; 0xD800] =
  [65; 195; 169; 227; 129; 130; 240; 159; 152; 128; 239; 191; 189].
Proof. reflexivity. Qed.

(** * Further properties of the code *)

(** ** The encoder *)

(** X1. On a non-negative integer argument [encode6bit] answers ["?"] exactly when
    the argument is above 63. *)
Theorem encode6bit_fallback (b : number) :
  0 <= b -> (encode6bit b = lit "?" <-> 64 <= b).
Proof.
  intros Hb. split.
  - intros E. destruct (Z.lt_ge_cases b 64) as [Hlt | Hge]; [| exact Hge].
    rewrite encode6bit_sym in E by lia. injection E as E.
    exfalso. apply (sym_not_question b); [lia | exact E].
  - intros Hge. unfold encode6bit.
    destruct (Z.ltb_spec b 10); [lia |].
    destruct (Z.ltb_spec b 36); [lia |].
    destruct (Z.ltb_spec b 62); [lia |].
    destruct (Z.eqb_spec b 62); [lia |].
    destruct (Z.eqb_spec b 63); [lia | reflexivity].
Qed.

Lemma encode6bit_fallback_witness :
  encode6bit 64 = lit "?" /\ encode6bit 63 <> lit "?".
Proof.
  split.
  - apply (proj2 (encode6bit_fallback 64 ltac:(lia))). lia.
  - intros E. apply (proj1 (encode6bit_fallback 63 ltac:(lia))) in E. lia.
Defined.

(** X2. Different six-bit values get different symbols. *)
Theorem encode6bit_injective (a b : number) :
  0 <= a < 64 -> 0 <= b < 64 -> a <> b -> encode6bit a <> encode6bit b.
Proof.
  intros Ha Hb Hne E. apply Hne.
  rewrite !encode6bit_sym in E by assumption.
  injection E as E.
  rewrite <- (decode6bit_sym a Ha), <- (decode6bit_sym b Hb), E.
  reflexivity.
Qed.

Lemma encode6bit_injective_witness : encode6bit 35 <> encode6bit 36.
Proof. apply encode6bit_injective; lia. Defined.

(** X3. On bytes the four masks [& 0x3f] of [encode3bytes] change
    nothing: each group value already lies in 0..63. *)
Theorem encode3bytes_masks_redundant (b1 b2 b3 : number) :
  is_byte b1 -> is_byte b2 -> is_byte b3 ->
  let c1 := b1 >> 2 in
  let c2 := ((b1 & 0x3) << 4) .| (b2 >> 4) in
  let c3 := ((b2 & 0xf) << 2) .| (b3 >> 6) in
  let c4 := b3 & 0x3f in
  (0 <= c1 < 64 /\ 0 <= c2 < 64 /\ 0 <= c3 < 64 /\ 0 <= c4 < 64) /\
  encode3bytes b1 b2 b3 =
  encode6bit c1 ++ encode6bit c2 ++ encode6bit c3 ++ encode6bit c4.
Proof.
  intros H1 H2 H3. cbv zeta.
  assert (E1 : b1 >> 2 = b1 / 4) by (apply shr2; range).
  assert (E2 : ((b1 & 0x3) << 4) .| (b2 >> 4) = b1 mod 4 * 16 + b2 / 16)
    by (rewrite band3, shl4, shr4, bor4 by range; reflexivity).
  assert (E3 : ((b2 & 0xf) << 2) .| (b3 >> 6) = b2 mod 16 * 4 + b3 / 64)
    by (rewrite band15, shl2, shr6, bor2 by range; reflexivity).
  assert (E4 : b3 & 0x3f = b3 mod 64) by (apply band63; range).
  split.
  - rewrite E1, E2, E3, E4. repeat split; range.
  - unfold encode3bytes. cbv zeta.
    rewrite js_c1, js_c2, js_c3, js_c4 by assumption.
    rewrite E1, E2, E3, E4. reflexivity.
Qed.

Lemma encode3bytes_masks_redundant_witness :
  encode3bytes 77 97 110 =
  encode6bit (77 >> 2) ++ encode6bit (((77 & 0x3) << 4) .| (97 >> 4)) ++
  encode6bit (((97 & 0xf) << 2) .| (110 >> 6)) ++ encode6bit (110 & 0x3f).
Proof.
  refine (proj2 (encode3bytes_masks_redundant 77 97 110 _ _ _));
    unfold is_byte; lia.
Defined.

Lemma encode64_chunks_app (A B : Uint8Array) :
  (length A mod 3 = 0)%nat ->
  encode64_chunks (A ++ B) = encode64_chunks A ++ encode64_chunks B.
Proof.
  induction A as [| b1 | b1 b2 | b1 b2 b3 rest IH] using list_ind3;
    intros H.
  - reflexivity.
  - discriminate H.
  - discriminate H.
  - change ((b1 :: b2 :: b3 :: rest) ++ B) with (b1 :: b2 :: b3 :: rest ++ B).
    cbn [encode64_chunks]. rewrite IH, app_assoc; [reflexivity |].
    change (length (b1 :: b2 :: b3 :: rest)) with (3 + length rest)%nat in H.
    replace (3 + length rest)%nat with (length rest + 1 * 3)%nat in H by lia.
    rewrite Nat.Div0.mod_add in H. exact H.
Qed.

(** X4. Encoding can be done piecewise at group boundaries: when the
    first part has a multiple of three bytes, the encoding of a
    concatenation is the concatenation of the encodings. *)
Theorem encode64_app (A B : Uint8Array) :
  (length A mod 3 = 0)%nat ->
  encode64 (A ++ B) = encode64 A ++ encode64 B.
Proof. intros H. rewrite !encode64_unroll. apply encode64_chunks_app, H. Qed.

Lemma encode64_app_witness :
  encode64 ([1; 2; 3] ++ [4; 5]) = encode64 [1; 2; 3] ++ encode64 [4; 5].
Proof. apply encode64_app. reflexivity. Defined.

(** X5. The output is empty only for the empty input, and its length is
    never one more than a multiple of four. *)
Theorem encode64_length_shape (data : Uint8Array) :
  (encode64 data = [] <-> data = []) /\
  (length (encode64 data) mod 4 <> 1)%nat.
Proof.
  rewrite encode64_unroll.
  pose proof (encode64_chunks_length data) as L.
  pose proof (Nat.div_mod_eq (length data) 3) as E.
  pose proof (Nat.mod_upper_bound (length data) 3 ltac:(discriminate)) as Hm.
  remember (length data / 3)%nat as q. remember (length data mod 3)%nat as m.
  split; [split |].
  - intros H0. rewrite H0 in L. cbn [length] in L.
    destruct data as [|b t]; [reflexivity | exfalso].
    cbn [length] in E.
    destruct m as [|[|[|m]]]; cbn [Spec.tail_chars] in L; lia.
  - intros ->. reflexivity.
  - rewrite L.
    replace (q * 4 + Spec.tail_chars m)%nat
      with (Spec.tail_chars m + q * 4)%nat by lia.
    rewrite Nat.Div0.mod_add.
    destruct m as [|[|[|m]]]; cbn; try discriminate; lia.
Qed.

(** ** The canonicalizer *)

Lemma ws_not_backtick c : Text.is_ws c = true -> (c =? backtick) = false.
Proof.
  intros H. destruct (Z.eqb_spec c backtick) as [-> |]; [| reflexivity].
  discriminate H.
Qed.

Lemma forallb_rev {A} (p : A -> bool) l : forallb p (rev l) = forallb p l.
Proof.
  apply eq_true_iff_eq. rewrite !forallb_forall.
  split; intros H x Hx; apply H; [apply in_rev in Hx | apply in_rev]; 
    try rewrite rev_involutive; assumption.
Qed.

Lemma trimStart_ws_app w y :
  forallb Text.is_ws w = true -> Text.trimStart (w ++ y) = Text.trimStart y.
Proof.
  induction w as [|c w IH]; [reflexivity |].
  cbn [forallb app Text.trimStart]. intros H.
  apply andb_true_iff in H as [Hc Hw]. rewrite Hc. auto.
Qed.

Lemma trimEnd_app_ws x w :
  forallb Text.is_ws w = true -> Text.trimEnd (x ++ w) = Text.trimEnd x.
Proof.
  intros H. unfold Text.trimEnd. rewrite rev_app_distr, trimStart_ws_app.
  - reflexivity.
  - rewrite forallb_rev. exact H.
Qed.

Lemma trimStart_split s :
  exists w, forallb Text.is_ws w = true /\ s = w ++ Text.trimStart s.
Proof.
  induction s as [|c t (w & Hw & E)]; [exists []; split; reflexivity |].
  cbn [Text.trimStart]. destruct (Text.is_ws c) eqn:Hc.
  - exists (c :: w). cbn [forallb app]. rewrite Hc, Hw.
    split; [reflexivity | f_equal; exact E].
  - exists []. split; reflexivity.
Qed.

Lemma trimEnd_split s :
  exists w, forallb Text.is_ws w = true /\ s = Text.trimEnd s ++ w.
Proof.
  unfold Text.trimEnd. destruct (trimStart_split (rev s)) as (w & Hw & E).
  exists (rev w). rewrite forallb_rev. split; [exact Hw |].
  rewrite <- rev_app_distr, <- E. symmetry. apply rev_involutive.
Qed.

Lemma trim_fixed_head s : Text.trim s = s -> head_ok s = true.
Proof.
  intros E. rewrite <- E. apply trimEnd_head, trimStart_head.
Qed.

Lemma trim_fixed_end s : Text.trim s = s -> Text.trimEnd s = s.
Proof.
  intros E. pose proof (trim_fixed_head s E) as H.
  unfold Text.trim in E. rewrite (trimStart_fixed s H) in E. exact E.
Qed.

(** X6. The canonical text contains no triple backtick and neither
    begins nor ends with white space. *)
Theorem cleanCode_canonical (s : jsstring) :
  has_fence (cleanCode s) = false /\
  head_ok (cleanCode s) = true /\
  head_ok (rev (cleanCode s)) = true.
Proof.
  split; [apply has_fence_cleanCode |].
  unfold cleanCode, Text.trim. split.
  - apply trimEnd_head, trimStart_head.
  - unfold Text.trimEnd. rewrite rev_involutive. apply trimStart_head.
Qed.

Lemma skip_letters_tag tag c s :
  forallb az_i tag = true -> az_i c = false ->
  skip_letters (tag ++ c :: s) = c :: s.
Proof.
  intros Ht Hc. induction tag as [|a tag IH].
  - cbn [app skip_letters]. rewrite Hc. reflexivity.
  - cbn [forallb] in Ht. apply andb_true_iff in Ht as [Ha Ht].
    cbn [app skip_letters]. rewrite Ha. auto.
Qed.

Lemma cleanCode_fenced_body tag body :
  forallb az_i tag = true -> has_fence body = false ->
  Text.trim body = body ->
  cleanCode (lit "```" ++ tag ++ [LF] ++ body ++ [LF] ++ lit "```") = body.
Proof.
  intros Htag Hb Htrim. rewrite cleanCode_one_pass.
  rewrite replace_drop by reflexivity.
  change (skipn 3 (lit "```" ++ tag ++ [LF] ++ body ++ [LF] ++ lit "```"))
    with (tag ++ LF :: body ++ [LF] ++ lit "```").
  rewrite skip_letters_tag by (assumption || reflexivity).
  change (skip_LF (LF :: body ++ [LF] ++ lit "```"))
    with (body ++ LF :: lit "```").
  unfold fence_tagged. rewrite replace_keep_prefix by (assumption || reflexivity).
  change (RegExp.replace _ (lit "```")) with (@nil Z).
  destruct body as [|c t]; [reflexivity |].
  unfold Text.trim.
  rewrite trimStart_fixed.
  - rewrite (trimEnd_app_ws (c :: t) [LF]) by reflexivity.
    apply trim_fixed_end, Htrim.
  - cbn [app head_ok]. exact (trim_fixed_head _ Htrim).
Qed.

(** X7. A text wrapped in a fence is unwrapped: an opening fence with a
    tag of ASCII letters and a line feed, a body without triple backtick
    and without surrounding white space, a line feed and a closing fence
    canonicalize to the body. *)
Theorem cleanCode_unwraps (tag body : jsstring) :
  forallb az_i tag = true -> has_fence body = false ->
  Text.trim body = body ->
  cleanCode (lit "```" ++ tag ++ [LF] ++ body ++ [LF] ++ lit "```") = body.
Proof. apply cleanCode_fenced_body. Qed.

Lemma cleanCode_unwraps_witness :
  cleanCode (lit "```" ++ lit "plantuml" ++ [LF] ++
             (lit "@startsalt" ++ [LF] ++ lit "@endsalt") ++ [LF] ++
             lit "```") =
  lit "@startsalt" ++ [LF] ++ lit "@endsalt".
Proof.
  apply (cleanCode_unwraps (lit "plantuml")
           (lit "@startsalt" ++ [LF] ++ lit "@endsalt")); reflexivity.
Defined.

(** ** Trimming before canonicalizing *)

Lemma has_fence_ws w : forallb Text.is_ws w = true -> has_fence w = false.
Proof.
  induction w as [|c w IH]; [reflexivity |].
  cbn [forallb has_fence]. intros H. apply andb_true_iff in H as [Hc Hw].
  rewrite starts_fence_1 by apply ws_not_backtick, Hc. auto.
Qed.

(** Leading white space is kept by the replacement. *)
Lemma replace_ws_prefix r w s :
  forallb Text.is_ws w = true ->
  RegExp.replace (RegExp.Cat three_backticks r) (w ++ s) =
  w ++ RegExp.replace (RegExp.Cat three_backticks r) s.
Proof.
  induction w as [|c w IH]; [reflexivity |].
  cbn [forallb app]. intros H. apply andb_true_iff in H as [Hc Hw].
  rewrite replace_keep by apply starts_fence_1, ws_not_backtick, Hc.
  f_equal. auto.
Qed.

Lemma starts_fence_app_ws u w :
  forallb Text.is_ws w = true -> starts_fence (u ++ w) = starts_fence u.
Proof.
  intros Hw.
  destruct u as [|c1 [|c2 [|c3 u']]]; cbn [app].
  - destruct w as [|c w']; [reflexivity |].
    cbn [forallb] in Hw. apply andb_true_iff in Hw as [Hc _].
    apply starts_fence_1, ws_not_backtick, Hc.
  - destruct w as [|c w']; [reflexivity |].
    cbn [forallb] in Hw. apply andb_true_iff in Hw as [Hc _].
    rewrite starts_fence_2 by apply ws_not_backtick, Hc. reflexivity.
  - destruct w as [|c w']; [reflexivity |].
    cbn [forallb] in Hw. apply andb_true_iff in Hw as [Hc _].
    rewrite starts_fence_3 by apply ws_not_backtick, Hc. reflexivity.
  - reflexivity.
Qed.

Lemma ws_not_letter c : Text.is_ws c = true -> az_i c = false.
Proof.
  unfold Text.is_ws, Text.is_white_space, Text.is_line_terminator, az_i.
  intros H. destruct ((97 <=? c) && (c <=? 122) || (65 <=? c) && (c <=? 90)) eqn:E;
    [exfalso | reflexivity].
  lia.
Qed.

Lemma skip_letters_app_ws v w :
  forallb Text.is_ws w = true ->
  skip_letters (v ++ w) = skip_letters v ++ w.
Proof.
  intros Hw. induction v as [|c v IH].
  - destruct w as [|d w']; [reflexivity |].
    cbn [forallb] in Hw. apply andb_true_iff in Hw as [Hd _].
    cbn [app skip_letters]. rewrite (ws_not_letter d Hd). reflexivity.
  - cbn [app skip_letters]. destruct (az_i c); [exact IH | reflexivity].
Qed.

Lemma skip_LF_ws w :
  forallb Text.is_ws w = true -> forallb Text.is_ws (skip_LF w) = true.
Proof.
  destruct w as [|c w']; [reflexivity |]. cbn [skip_LF forallb].
  intros H. destruct (c =? LF); [| exact H].
  apply andb_true_iff in H as [_ H]. exact H.
Qed.

(** Trailing white space changes the result of the replacement only by
    trailing white space. *)
Lemma replace_ws_suffix_bound w n : forall u,
  forallb Text.is_ws w = true -> (length u <= n)%nat ->
  exists w', forallb Text.is_ws w' = true /\
             RegExp.replace fence_tagged (u ++ w) =
             RegExp.replace fence_tagged u ++ w'.
Proof.
  induction n as [|n IH]; intros u Hw Hn.
  - destruct u; [| cbn [length] in Hn; lia].
    exists w. split; [exact Hw |]. cbn [app]. unfold fence_tagged.
    apply replace_no_fence, has_fence_ws, Hw.
  - destruct u as [|c t].
    { exists w. split; [exact Hw |]. cbn [app]. unfold fence_tagged.
      apply replace_no_fence, has_fence_ws, Hw. }
    destruct (starts_fence (c :: t)) eqn:Hs.
    + rewrite (replace_drop (c :: t)) by exact Hs.
      rewrite replace_drop by (rewrite starts_fence_app_ws; assumption).
      destruct t as [|c2 [|c3 v]]; try discriminate.
      change (skipn 3 ((c :: c2 :: c3 :: v) ++ w)) with (v ++ w).
      change (skipn 3 (c :: c2 :: c3 :: v)) with v.
      rewrite skip_letters_app_ws by exact Hw.
      destruct (skip_letters v) as [|d x] eqn:Ex.
      * exists (skip_LF w). split; [apply skip_LF_ws, Hw |].
        cbn [app skip_LF]. unfold fence_tagged.
        apply replace_no_fence, has_fence_ws, skip_LF_ws, Hw.
      * assert (Hlen : (length (skip_LF (d :: x)) <= n)%nat).
        { pose proof (skip_tag_le v) as L. rewrite Ex in L.
          cbn [length] in Hn. lia. }
        replace (skip_LF ((d :: x) ++ w)) with (skip_LF (d :: x) ++ w)
          by (cbn [app skip_LF]; destruct (d =? LF); reflexivity).
        apply IH; assumption.
    + assert (Hs' : starts_fence ((c :: t) ++ w) = false)
        by (rewrite starts_fence_app_ws; assumption).
      cbn [app] in Hs' |- *. unfold fence_tagged.
      rewrite !replace_keep by assumption.
      destruct (IH t Hw) as (w' & Hw' & E); [cbn [length] in Hn; lia |].
      exists w'. split; [exact Hw' |].
      unfold fence_tagged in E. rewrite E. reflexivity.
Qed.

Lemma trimStart_app_ws y w :
  forallb Text.is_ws w = true ->
  Text.trimEnd (Text.trimStart (y ++ w)) = Text.trimEnd (Text.trimStart y).
Proof.
  intros Hw. induction y as [|c y IH].
  - cbn [app]. destruct (trimStart_split w) as (w1 & _ & _).
    assert (E : Text.trimStart w = []).
    { rewrite <- (app_nil_r w), trimStart_ws_app by exact Hw. reflexivity. }
    rewrite E. reflexivity.
  - cbn [app Text.trimStart]. destruct (Text.is_ws c); [exact IH |].
    apply (trimEnd_app_ws (c :: y)), Hw.
Qed.

Lemma cleanCode_trim_first t : cleanCode (Text.trim t) = cleanCode t.
Proof.
  destruct (trimStart_split t) as (w1 & Hw1 & E1).
  destruct (trimEnd_split (Text.trimStart t)) as (w2 & Hw2 & E2).
  fold (Text.trim t) in E2.
  rewrite E1 at 2. rewrite E2. rewrite !cleanCode_one_pass.
  unfold fence_tagged at 2. rewrite replace_ws_prefix by exact Hw1.
  fold fence_tagged.
  destruct (replace_ws_suffix_bound w2 _ (Text.trim t) Hw2 (Nat.le_refl _))
    as (w' & Hw' & E).
  rewrite E. unfold Text.trim.
  rewrite trimStart_ws_app by exact Hw1.
  symmetry. apply trimStart_app_ws, Hw'.
Qed.

(** X8. The service trims the text of the response before the
    application canonicalizes it; that trimming makes no difference to
    the canonical text. An absent or empty text gives the empty string. *)
Theorem cleanCode_response_text (text : jsstring) :
  cleanCode (response_text (Some text)) = cleanCode text /\
  response_text None = [] /\ response_text (Some []) = [].
Proof.
  split; [| split; reflexivity].
  destruct text as [|c t]; [reflexivity |].
  unfold response_text. apply cleanCode_trim_first.
Qed.

(** ** The canonicalizer only deletes *)

Lemma subseq_refl l : subseq l l.
Proof. induction l; constructor; assumption. Qed.

Lemma subseq_trans l1 l2 l3 : subseq l1 l2 -> subseq l2 l3 -> subseq l1 l3.
Proof.
  intros H12 H23. revert l1 H12.
  induction H23 as [| c l2 l3 H IH | c l2 l3 H IH]; intros l1 H12.
  - exact H12.
  - apply subseq_skip, IH, H12.
  - inversion H12; subst.
    + apply subseq_skip, IH. assumption.
    + apply subseq_keep, IH. assumption.
Qed.

Lemma subseq_app_l w l : subseq l (w ++ l).
Proof. induction w; [apply subseq_refl | apply subseq_skip; assumption]. Qed.

Lemma subseq_app_r l w : subseq l (l ++ w).
Proof.
  induction l as [|c l IH].
  - induction w; constructor; assumption.
  - apply subseq_keep, IH.
Qed.

Lemma subseq_skipn k l : subseq (skipn k l) l.
Proof.
  rewrite <- (firstn_skipn k l) at 2. apply subseq_app_l.
Qed.

Lemma subseq_length l1 l2 : subseq l1 l2 -> (length l1 <= length l2)%nat.
Proof. induction 1; cbn [length]; lia. Qed.

Lemma replace_subseq_bound n : forall s,
  (length s <= n)%nat -> subseq (RegExp.replace fence_tagged s) s.
Proof.
  induction n as [|n IH]; intros s Hn.
  - destruct s; [constructor | cbn [length] in Hn; lia].
  - destruct s as [|c t]; [constructor |].
    destruct (starts_fence (c :: t)) eqn:Hs.
    + rewrite replace_drop by assumption.
      destruct t as [|c2 [|c3 u]]; try discriminate.
      cbn [skipn].
      apply subseq_trans with (l2 := skip_LF (skip_letters u)).
      * apply IH. pose proof (skip_tag_le u). cbn [length] in Hn. lia.
      * rewrite <- skip_tag_suffix.
        do 3 apply subseq_skip. apply subseq_skipn.
    + unfold fence_tagged. rewrite replace_keep by assumption.
      apply subseq_keep, IH. cbn [length] in Hn. lia.
Qed.

(** X9. The canonical text is the text with some code units deleted:
    nothing is added, changed or reordered. *)
Theorem cleanCode_subseq (s : jsstring) : subseq (cleanCode s) s.
Proof.
  rewrite cleanCode_one_pass.
  apply subseq_trans with (l2 := RegExp.replace fence_tagged s);
    [| apply (replace_subseq_bound (length s)), Nat.le_refl].
  unfold Text.trim.
  apply subseq_trans with (l2 := Text.trimStart (RegExp.replace fence_tagged s)).
  - destruct (trimEnd_split (Text.trimStart (RegExp.replace fence_tagged s)))
      as (w & _ & E).
    rewrite E at 2. apply subseq_app_r.
  - destruct (trimStart_split (RegExp.replace fence_tagged s)) as (w & _ & E).
    rewrite E at 2. apply subseq_app_l.
Qed.

(** ** The URL and the console *)

Section UrlFacts.

Context {exn : Type}
  (pako_deflate : Uint8Array -> Z -> completion exn Uint8Array).

Lemma try_block_cases code con :
  (exists compressed,
     pako_deflate (Text.encode (cleanCode code)) 9 = Normal compressed /\
     try_block pako_deflate code con =
     (Normal (lit "https://plantuml.com/plantuml/svg/~1" ++ encode64 compressed),
      con)) \/
  (exists e,
     pako_deflate (Text.encode (cleanCode code)) 9 = Throw e /\
     try_block pako_deflate code con = (Throw e, con)).
Proof.
  destruct (pako_deflate (Text.encode (cleanCode code)) 9) as [c | e] eqn:E.
  - left. exists c. split; [reflexivity |]. apply try_block_normal, E.
  - right. exists e. split; [reflexivity |]. apply try_block_throw, E.
Qed.

(** X10. Whatever the compressor does, the result is either the empty
    string or the fixed prefix followed by characters of
    [[0-9A-Za-z_-]] only. *)
Theorem getPlantUMLUrl_shape (code : option jsstring) (con con' : console exn)
    (url : jsstring) :
  getPlantUMLUrl pako_deflate code con = (Normal url, con') ->
  url = [] \/
  exists payload,
    url = lit "https://plantuml.com/plantuml/svg/~1" ++ payload /\
    Forall (fun c => in_alphabet c = true) payload.
Proof.
  destruct code as [[|c t] |]; intros H;
    try (injection H as <- _; left; reflexivity).
  rewrite getPlantUMLUrl_text in H.
  destruct (try_block_cases (c :: t) con) as [(z & _ & E) | (e & _ & E)];
    rewrite E in H; injection H as <- _.
  - right. exists (encode64 z). split; [reflexivity |].
    rewrite encode64_unroll. apply encode64_chunks_alphabet.
  - left. reflexivity.
Qed.

(** X11. The console is written to once at most, behind what it already
    holds, and only when the result is the empty string: a URL is never
    accompanied by an error entry, and absent or empty input is never
    logged. *)
Theorem getPlantUMLUrl_console (code : option jsstring) (con : console exn) :
  exists url entries,
    getPlantUMLUrl pako_deflate code con = (Normal url, con ++ entries) /\
    (length entries <= 1)%nat /\
    (entries <> [] -> url = [] /\ code <> None /\ code <> Some []).
Proof.
  destruct code as [[|c t] |].
  - exists [], []. rewrite app_nil_r. repeat split; auto; contradiction.
  - rewrite getPlantUMLUrl_text.
    destruct (try_block_cases (c :: t) con) as [(z & _ & E) | (e & _ & E)];
      rewrite E.
    + eexists _, []. rewrite app_nil_r.
      split; [reflexivity | split; [cbn; lia | contradiction]].
    + exists [], [(lit "Encoding error", e)].
      split; [reflexivity | split; [cbn; lia |]].
      intros _. repeat split; discriminate.
  - exists [], []. rewrite app_nil_r. repeat split; auto; contradiction.
Qed.

(** X12. A non-empty canonical body and the same body wrapped in a fence
    give the same result. *)
Theorem getPlantUMLUrl_fenced (tag body : jsstring) (con : console exn) :
  forallb az_i tag = true -> has_fence body = false ->
  Text.trim body = body -> body <> [] ->
  getPlantUMLUrl pako_deflate
    (Some (lit "```" ++ tag ++ [LF] ++ body ++ [LF] ++ lit "```")) con =
  getPlantUMLUrl pako_deflate (Some body) con.
Proof.
  intros Htag Hb Htrim Hne.
  destruct body as [|c t]; [contradiction |].
  change (lit "```" ++ tag ++ [LF] ++ (c :: t) ++ [LF] ++ lit "```")
    with (96 :: 96 :: 96 :: tag ++ [LF] ++ (c :: t) ++ [LF] ++ lit "```").
  rewrite !getPlantUMLUrl_text. unfold try_block.
  change (96 :: 96 :: 96 :: tag ++ [LF] ++ (c :: t) ++ [LF] ++ lit "```")
    with (lit "```" ++ tag ++ [LF] ++ (c :: t) ++ [LF] ++ lit "```").
  rewrite cleanCode_fenced_body by assumption.
  rewrite (cleanCode_no_fence (c :: t)), Htrim by assumption.
  reflexivity.
Qed.

End UrlFacts.

Lemma getPlantUMLUrl_shape_witness :
  exists payload,
    lit "https://plantuml.com/plantuml/svg/~1GG" =
    lit "https://plantuml.com/plantuml/svg/~1" ++ payload /\
    Forall (fun c => in_alphabet c = true) payload.
Proof.
  destruct (getPlantUMLUrl_shape deflate_stored (Some (lit " A ")) [] []
              (lit "https://plantuml.com/plantuml/svg/~1GG") eq_refl)
    as [E | H]; [discriminate E | exact H].
Defined.

Lemma getPlantUMLUrl_console_witness :
  exists url entries,
    getPlantUMLUrl deflate_empty_only (Some (lit "x")) [] =
    (Normal url, [] ++ entries) /\
    (length entries <= 1)%nat /\
    (entries <> [] -> url = [] /\ Some (lit "x") <> None /\
                      Some (lit "x") <> Some []).
Proof. exact (getPlantUMLUrl_console deflate_empty_only (Some (lit "x")) []). Defined.

Lemma getPlantUMLUrl_fenced_witness :
  getPlantUMLUrl deflate_stored
    (Some (lit "```" ++ lit "plantuml" ++ [LF] ++ lit "@startsalt" ++ [LF] ++
           lit "```")) [] =
  getPlantUMLUrl deflate_stored (Some (lit "@startsalt")) [].
Proof.
  apply (getPlantUMLUrl_fenced deflate_stored (lit "plantuml")
           (lit "@startsalt") []); (reflexivity || discriminate).
Defined.

(** ** Splitting and [fileToBase64] *)

Lemma split_not_nil sep s : split sep s <> [].
Proof.
  destruct s as [|c t]; [discriminate |]. cbn [split].
  destruct (c =? sep); [discriminate |].
  destruct (split sep t); discriminate.
Qed.

Lemma split_no_sep sep s : ~ In sep s -> split sep s = [s].
Proof.
  induction s as [|c t IH]; [reflexivity |]. intros H. cbn [split].
  destruct (Z.eqb_spec c sep) as [-> |]; [exfalso; apply H; left; reflexivity |].
  rewrite IH; [reflexivity |]. intros Hin. apply H. right. exact Hin.
Qed.

Lemma split_first sep a b :
  ~ In sep a -> split sep (a ++ sep :: b) = a :: split sep b.
Proof.
  induction a as [|c t IH]; intros H.
  - cbn [app split]. rewrite Z.eqb_refl. reflexivity.
  - cbn [app split].
    destruct (Z.eqb_spec c sep) as [-> |]; [exfalso; apply H; left; reflexivity |].
    rewrite IH; [reflexivity |]. intros Hin. apply H. right. exact Hin.
Qed.

(** No piece contains the separator, and every piece is part of the
    string. *)
Lemma split_pieces sep s :
  Forall (fun x => ~ In sep x /\ incl x s) (split sep s).
Proof.
  induction s as [|c t IH].
  - repeat constructor; [intros [] | apply incl_refl].
  - cbn [split]. destruct (Z.eqb_spec c sep) as [-> | Hne].
    + constructor; [split; [intros [] | intros x []] |].
      eapply Forall_impl; [| exact IH].
      intros x [H1 H2]. split; [exact H1 | apply incl_tl, H2].
    + pose proof (split_not_nil sep t) as N.
      destruct (split sep t) as [|x xs]; [contradiction |].
      inversion_clear IH as [|? ? [Hx1 Hx2] Hxs].
      constructor.
      * split; [intros [E | Hin]; [congruence | exact (Hx1 Hin)] |].
        intros y [<- | Hy]; [left; reflexivity | right; apply Hx2, Hy].
      * eapply Forall_impl; [| exact Hxs].
        intros y [H1 H2]. split; [exact H1 | apply incl_tl, H2].
Qed.

Lemma split_piece sep s i x :
  nth_error (split sep s) i = Some x -> ~ In sep x /\ incl x s.
Proof.
  intros H. apply nth_error_In in H.
  pose proof (split_pieces sep s) as F. rewrite Forall_forall in F.
  exact (F x H).
Qed.

Lemma split_hd_piece sep s : ~ In sep (hd [] (split sep s)) /\ incl (hd [] (split sep s)) s.
Proof.
  pose proof (split_not_nil sep s) as N.
  apply (split_piece sep s 0). destruct (split sep s); [contradiction | reflexivity].
Qed.

(** X13. [fileToBase64] on a well-formed data URL: with a media type and
    a payload that are not empty and hold none of the separators, the
    promise resolves with exactly that payload and that media type. *)
Theorem fileToBase64_data_url (mime payload : jsstring) :
  mime <> [] -> payload <> [] ->
  ~ In comma mime -> ~ In colon mime -> ~ In semicolon mime ->
  ~ In comma payload ->
  fileToBase64_onload (lit "data:" ++ mime ++ lit ";base64," ++ payload) =
  Resolved payload mime.
Proof.
  intros Hm Hp Hcm Hcl Hsc Hcp. unfold fileToBase64_onload. cbv zeta.
  assert (E1 : split comma (lit "data:" ++ mime ++ lit ";base64," ++ payload)
               = (lit "data:" ++ mime ++ lit ";base64") :: [payload]).
  { change (lit "data:" ++ mime ++ lit ";base64," ++ payload)
      with (lit "data:" ++ mime ++ lit ";base64" ++ comma :: payload).
    rewrite !app_assoc, <- (app_assoc (lit "data:")).
    rewrite split_first, (split_no_sep comma payload) by
      (try assumption; rewrite !in_app_iff; cbn; unfold comma in *; intuition lia).
    reflexivity. }
  assert (E2 : hd [] (split semicolon
                        (lit "data:" ++ mime ++ lit ";base64," ++ payload))
               = lit "data:" ++ mime).
  { change (lit "data:" ++ mime ++ lit ";base64," ++ payload)
      with (lit "data:" ++ mime ++ semicolon :: lit "base64," ++ payload).
    rewrite app_assoc, split_first by
      (rewrite !in_app_iff; cbn; unfold semicolon in *; intuition lia).
    reflexivity. }
  assert (E3 : split colon (lit "data:" ++ mime) = [lit "data"; mime]).
  { change (lit "data:" ++ mime) with (lit "data" ++ colon :: mime).
    rewrite split_first, (split_no_sep colon mime) by
      (try assumption; cbn; unfold colon; intuition lia).
    reflexivity. }
  rewrite E1, E2, E3. cbn [nth_error].
  destruct payload; [contradiction |]. destruct mime; [contradiction |].
  reflexivity.
Qed.

Lemma fileToBase64_data_url_witness :
  fileToBase64_onload (lit "data:" ++ lit "image/png" ++ lit ";base64," ++
                       lit "iVBORw0KGgo=") =
  Resolved (lit "iVBORw0KGgo=") (lit "image/png").
Proof.
  apply fileToBase64_data_url; try discriminate;
    cbn; unfold comma, colon, semicolon; intuition lia.
Defined.

(** X14. Whenever the promise resolves, neither part is empty, the
    payload holds no comma, the media type holds neither a colon nor a
    semicolon, and both are made of code units of the input. *)
Theorem fileToBase64_resolved (result base64 mimeType : jsstring) :
  fileToBase64_onload result = Resolved base64 mimeType ->
  base64 <> [] /\ mimeType <> [] /\
  ~ In comma base64 /\ ~ In colon mimeType /\ ~ In semicolon mimeType /\
  incl base64 result /\ incl mimeType result.
Proof.
  unfold fileToBase64_onload. cbv zeta.
  destruct (nth_error (split comma result) 1) as [[|b bs] |] eqn:Eb;
    try discriminate.
  destruct (nth_error (split colon (hd [] (split semicolon result))) 1)
    as [[|m ms] |] eqn:Em; try discriminate.
  intros H. injection H as <- <-.
  destruct (split_piece _ _ _ _ Eb) as [B1 B2].
  destruct (split_piece _ _ _ _ Em) as [M1 M2].
  destruct (split_hd_piece semicolon result) as [S1 S2].
  repeat split; try discriminate; try assumption.
  - intros Hin. apply S1, M2, Hin.
  - intros x Hx. apply S2, M2, Hx.
Qed.

Lemma fileToBase64_resolved_witness :
  lit "AAA" <> [] /\ lit "text/plain" <> [] /\
  ~ In comma (lit "AAA") /\ ~ In colon (lit "text/plain") /\
  ~ In semicolon (lit "text/plain") /\
  incl (lit "AAA") (lit "data:text/plain;charset=utf-8;base64,AAA") /\
  incl (lit "text/plain") (lit "data:text/plain;charset=utf-8;base64,AAA").
Proof.
  exact (fileToBase64_resolved
           (lit "data:text/plain;charset=utf-8;base64,AAA")
           (lit "AAA") (lit "text/plain") eq_refl).
Defined.

(** X15. The promise is rejected when the result holds no comma, when it
    holds no colon, and when nothing follows its first comma. *)
Theorem fileToBase64_rejected (result : jsstring) :
  ~ In comma result \/ ~ In colon result \/
  (exists pre, ~ In comma pre /\ result = pre ++ [comma]) ->
  fileToBase64_onload result = Rejected (lit "Failed to parse file data.").
Proof.
  unfold fileToBase64_onload. cbv zeta. intros [H | [H | (pre & Hpre & ->)]].
  - rewrite (split_no_sep comma result H). reflexivity.
  - destruct (split_hd_piece semicolon result) as [_ S2].
    rewrite (split_no_sep colon (hd [] (split semicolon result)))
      by (intros Hin; apply H, S2, Hin).
    destruct (nth_error (split comma result) 1) as [[|? ?] |]; reflexivity.
  - rewrite split_first by assumption. reflexivity.
Qed.

Lemma fileToBase64_rejected_witness :
  fileToBase64_onload (lit "data:image/png;base64,") =
  Rejected (lit "Failed to parse file data.").
Proof.
  apply fileToBase64_rejected. right. right.
  exists (lit "data:image/png;base64"). split; [| reflexivity].
  cbn; unfold comma; intuition lia.
Defined.

(** ** [handleSubmit] *)

Lemma trimStart_nil_iff s :
  Text.trimStart s = [] <-> forallb Text.is_ws s = true.
Proof.
  induction s as [|c t IH]; [split; reflexivity |].
  cbn [Text.trimStart forallb]. destruct (Text.is_ws c).
  - exact IH.
  - split; discriminate.
Qed.

Lemma trim_nil_iff s : Text.trim s = [] <-> forallb Text.is_ws s = true.
Proof.
  rewrite <- trimStart_nil_iff. unfold Text.trim, Text.trimEnd. split.
  - intros H.
    assert (H' : Text.trimStart (rev (Text.trimStart s)) = [])
      by (rewrite <- (rev_involutive (Text.trimStart _)), H; reflexivity).
    apply trimStart_nil_iff in H'. rewrite forallb_rev in H'.
    apply trimStart_nil_iff in H'.
    rewrite (trimStart_fixed _ (trimStart_head s)) in H'. exact H'.
  - intros ->. reflexivity.
Qed.

(** X16. [handleSubmit] calls [onRefine] exactly when the instruction
    holds a code unit that is not white space; it passes the instruction
    untrimmed and clears the field. An instruction of white space only is
    not submitted and stays in the field. *)
Theorem handleSubmit_submits (instruction : jsstring) :
  handleSubmit instruction =
  if forallb Text.is_ws instruction then (None, instruction)
  else (Some instruction, []).
Proof.
  unfold handleSubmit.
  destruct (forallb Text.is_ws instruction) eqn:E.
  - rewrite (proj2 (trim_nil_iff instruction) E). reflexivity.
  - destruct (Text.trim instruction) eqn:T; [| reflexivity].
    rewrite (proj1 (trim_nil_iff instruction) T) in E. discriminate.
Qed.

(** ** [SaltPreview] *)

Section PreviewFacts.

Context {exn : Type}
  (pako_deflate : Uint8Array -> Z -> completion exn Uint8Array).

(** X17. [SaltPreview] never throws. It shows an image only when it is
    not loading, and then the source of the image begins with the fixed
    prefix; when the compressor throws on the code, there is no image but
    the placeholder (or the skeleton or the error text, if those apply). *)
Theorem SaltPreview_image (saltCode : option jsstring) (isLoading : bool)
    (error : option jsstring) (con : console exn) :
  exists view con',
    SaltPreview pako_deflate saltCode isLoading error con =
    (Normal view, con') /\
    (forall src, view = Image src ->
       isLoading = false /\
       exists payload, src = lit "https://plantuml.com/plantuml/svg/~1" ++ payload) /\
    (forall code e,
       saltCode = Some code ->
       pako_deflate (Text.encode (cleanCode code)) 9 = Throw e ->
       forall src, view <> Image src) /\
    (isLoading = false -> error = None ->
     (saltCode = None \/ saltCode = Some []) -> view = Placeholder).
Proof.
  unfold SaltPreview, bind, ret.
  destruct saltCode as [[|c t] |].
  - eexists _, _. split; [reflexivity |]. split; [| split].
    + intros src H. destruct isLoading; [discriminate |].
      destruct error as [[|? ?] |]; discriminate.
    + intros code e _ _ src H. destruct isLoading; [discriminate |].
      destruct error as [[|? ?] |]; discriminate.
    + intros -> -> _. reflexivity.
  - rewrite getPlantUMLUrl_text.
    destruct (try_block_cases pako_deflate (c :: t) con)
      as [(z & Hz & E) | (e & He & E)]; rewrite E.
    + eexists _, _. split; [reflexivity |]. split; [| split].
      * intros src H. destruct isLoading; [discriminate |].
        destruct error as [[|? ?] |]; try discriminate;
          injection H as <-; (split; [reflexivity |]);
          exists (encode64 z); reflexivity.
      * intros code e [= <-] He. rewrite He in Hz. discriminate.
      * intros _ _ [H | H]; discriminate.
    + eexists _, _. split; [reflexivity |]. split; [| split].
      * intros src H. destruct isLoading; [discriminate |].
        destruct error as [[|? ?] |]; discriminate.
      * intros code e' _ _ src H. destruct isLoading; [discriminate |].
        destruct error as [[|? ?] |]; discriminate.
      * intros _ _ [H | H]; discriminate.
  - eexists _, _. split; [reflexivity |]. split; [| split].
    + intros src H. destruct isLoading; [discriminate |].
      destruct error as [[|? ?] |]; discriminate.
    + intros code e H. discriminate.
    + intros -> -> _. reflexivity.
Qed.

End PreviewFacts.

Lemma SaltPreview_image_witness :
  exists view con',
    SaltPreview deflate_empty_only (Some (lit "@startsalt")) false None [] =
    (Normal view, con') /\ forall src, view <> Image src.
Proof.
  destruct (SaltPreview_image deflate_empty_only (Some (lit "@startsalt"))
              false None [])
    as (view & con' & E & _ & H & _).
  exists view, con'. split; [exact E |].
  exact (H (lit "@startsalt") tt eq_refl eq_refl).
Defined.
